(** * sipgateio-google-deployer: template wizard, config store and selectors

    A shallow embedding of [src/config.ts] and of the command line entry
    file (the one that defines [composeQuestion], [extractQuestions] and
    [calculateTabs]), together with the properties the specification states
    about them.

    JavaScript strings are sequences of code units; they are modelled as
    [list ascii], one [ascii] per code unit in the range 0..255.  Objects
    used as dictionaries ([Config], the inquirer answers) are association
    lists in own-property order; [prop_set] is the assignment of a string
    to a property of a plain object, with the places the language gives to
    array indices and its treatment of the prototype property. *)

From Stdlib Require Import ZArith QArith Qround Ascii String List Lia.
From stdpp Require Import base list list_numbers strings gmap.

Local Open Scope Z_scope.
Local Open Scope nat_scope.
Local Open Scope list_scope.

(** ** JavaScript strings *)

Module JS.

Abbreviation str := (list ascii).

(** A string literal of the source. *)
Definition js (s : string) : str := list_ascii_of_string s.

Definition chr (n : nat) : ascii := ascii_of_nat n.

Definition NL : ascii := chr 10.
Definition TAB : ascii := chr 9.
Definition ESC : ascii := chr 27.

(** [s.indexOf(c)]: position of the first occurrence, or -1. *)
Fixpoint indexOf_from (c : ascii) (s : str) (i : Z) : Z :=
  match s with
  | [] => (-1)%Z
  | x :: t => if Ascii.eqb x c then i else indexOf_from c t (i + 1)%Z
  end.

Definition indexOf (c : ascii) (s : str) : Z := indexOf_from c s 0%Z.

(** Relative index resolution of [slice]: a negative index counts from
    the end, and everything is clamped to [0, len]. *)
Definition clamp_index (len i : Z) : Z :=
  if (i <? 0)%Z then Z.max (len + i) 0 else Z.min i len.

(** [s.slice(b, e)] *)
Definition slice (s : str) (b e : Z) : str :=
  let len := Z.of_nat (length s) in
  let from := clamp_index len b in
  let to := clamp_index len e in
  take (Z.to_nat (to - from)) (drop (Z.to_nat from) s).

(** White space and line terminators removed by [trim], among the code
    units 0..255: TAB, LF, VT, FF, CR, SP and NBSP. *)
Definition is_ws (c : ascii) : bool :=
  let n := nat_of_ascii c in
  (n =? 9) || (n =? 10) || (n =? 11) || (n =? 12) || (n =? 13)
  || (n =? 32) || (n =? 160).

Fixpoint drop_while (p : ascii -> bool) (s : str) : str :=
  match s with
  | [] => []
  | c :: t => if p c then drop_while p t else s
  end.

Fixpoint take_while (p : ascii -> bool) (s : str) : str :=
  match s with
  | [] => []
  | c :: t => if p c then c :: take_while p t else []
  end.

Definition trimStart (s : str) : str := drop_while is_ws s.
Definition trimEnd (s : str) : str := rev (drop_while is_ws (rev s)).

(** [s.trim()] *)
Definition trim (s : str) : str := trimEnd (trimStart s).

(** [s.startsWith(c)] for a one-character pattern. *)
Definition startsWith (c : ascii) (s : str) : bool :=
  match s with
  | x :: _ => Ascii.eqb x c
  | [] => false
  end.

(** [s.split(c)]: never empty, the empty string splits into one empty
    piece. *)
Fixpoint split (c : ascii) (s : str) : list str :=
  match s with
  | [] => [[]]
  | x :: t =>
      if Ascii.eqb x c then [] :: split c t
      else match split c t with
           | r :: rs => (x :: r) :: rs
           | [] => [[x]]
           end
  end.

(** Prefix test and [s.includes(q)]. *)
Fixpoint prefixb (q s : str) : bool :=
  match q, s with
  | [], _ => true
  | _ :: _, [] => false
  | a :: q', b :: s' => Ascii.eqb a b && prefixb q' s'
  end.

Fixpoint includes (s q : str) : bool :=
  prefixb q s ||
  match s with
  | [] => false
  | _ :: t => includes t q
  end.

(** [s.toLowerCase()] on the code units 0..255: A-Z, and the Latin-1
    capitals 192..222 except the multiplication sign 215.  On this range
    the conversion works unit by unit; beyond it the language converts
    some letters by their context, and such text is not covered. *)
Definition lower_char (c : ascii) : ascii :=
  let n := nat_of_ascii c in
  if ((65 <=? n) && (n <=? 90))
     || ((192 <=? n) && (n <=? 222) && negb (n =? 215))
  then ascii_of_nat (n + 32) else c.

Definition toLowerCase (s : str) : str := map lower_char s.

(** ['\t'.repeat(n)] *)
Definition repeat_tab (n : nat) : str := repeat TAB n.

(** The regular expression of [extractEnv] and [composeQuestion]: one or
    more characters other than the single quote (39) and the double quote
    (34), matched globally. *)
Definition is_quote (c : ascii) : bool :=
  let n := nat_of_ascii c in (n =? 39) || (n =? 34).

(** Global matching: scan left to right, [cur] holds the run being matched
    (reversed); a quote character ends the current run. *)
Fixpoint scan_runs (s : str) (cur : str) : list str :=
  match s with
  | [] => match cur with [] => [] | _ => [rev cur] end
  | c :: t =>
      if is_quote c then
        match cur with
        | [] => scan_runs t []
        | _ => rev cur :: scan_runs t []
        end
      else scan_runs t (c :: cur)
  end.

(** [s.match(re)] for that expression: the array of all matches, or
    [null] when there is none. *)
Definition match_runs (s : str) : option (list str) :=
  match scan_runs s [] with
  | [] => None
  | rs => Some rs
  end.

End JS.

Import JS.

(** ** The ColumnAligner: [calculateTabs] *)

Definition tabStopWidth : nat := 8.

(** [Math.max] of no numbers is minus infinity where [max_list] gives 0;
    with no name there is no tab count to compute from it. *)
Definition calculateTabs (strings : list str) : list nat :=
  let max := max_list (map (fun s : str => length s) strings) in
  map (fun f => f + 1)
    (map (fun d => d / 8)
       (map (fun l => max - l)
          (map (fun s : str => length s) strings))).

(** The terminal's tab stops (glossary: a fixed-width column boundary of
    width 8): a tab moves the cursor to the next multiple of 8. *)
Definition tab_advance (col : nat) : nat := (col / tabStopWidth + 1) * tabStopWidth.

(** Column reached by a name of [len] printable characters followed by
    [k] tab characters. *)
Definition padded_col (len k : nat) : nat := Nat.iter k tab_advance len.


(** ** Objects used as dictionaries *)

(** [o[k] = v] for a name that is neither an array index nor
    [__proto__] ([prop_set] below covers all names): an existing property
    keeps its place, a new one goes last. *)
Fixpoint obj_set {V : Type} (k : str) (v : V) (o : list (str * V)) : list (str * V) :=
  match o with
  | [] => [(k, v)]
  | (k', v') :: t =>
      if decide (k' = k) then (k, v) :: t else (k', v') :: obj_set k v t
  end.

(** [o[k]], [None] standing for [undefined]. *)
Fixpoint obj_get {V : Type} (k : str) (o : list (str * V)) : option V :=
  match o with
  | [] => None
  | (k', v') :: t => if decide (k' = k) then Some v' else obj_get k t
  end.

Definition obj_keys {V : Type} (o : list (str * V)) : list str := map fst o.

(** The names a plain object treats specially.  An array index is a
    canonical decimal numeral (no sign, no leading zero) of value at most
    2^32 - 2; own properties named by array indices are listed first, in
    ascending numeric order, before all other names. *)
Definition is_digit (c : ascii) : bool :=
  let n := nat_of_ascii c in (48 <=? n) && (n <=? 57).

Definition digits_value (k : str) : N :=
  fold_left (fun acc c => (acc * 10 + N.of_nat (nat_of_ascii c - 48))%N) k 0%N.

Definition is_array_index (k : str) : bool :=
  match k with
  | [] => false
  | c :: t =>
      forallb is_digit k
      && (negb (Ascii.eqb c (chr 48)) || bool_decide (t = []))
      && (digits_value k <=? 4294967294)%N
  end.

Definition PROTO : str := js "__proto__".

(** A new array index goes after the smaller array indices and before
    everything else. *)
Fixpoint insert_index {V : Type} (k : str) (v : V) (o : list (str * V)) : list (str * V) :=
  match o with
  | [] => [(k, v)]
  | (k', v') :: t =>
      if is_array_index k' && (digits_value k' <? digits_value k)%N
      then (k', v') :: insert_index k v t
      else (k, v) :: (k', v') :: t
  end.

(** [o[k] = v] on a plain object, [v] a string: the assignment to
    [__proto__] reaches the setter of the prototype, which ignores a
    string, and stores nothing; an existing property keeps its place; a
    new array index is placed among the array indices, any other new name
    goes last. *)
Definition prop_set {V : Type} (k : str) (v : V) (o : list (str * V)) : list (str * V) :=
  if bool_decide (k = PROTO) then o
  else if is_array_index k && negb (bool_decide (k ∈ obj_keys o)) then insert_index k v o
  else obj_set k v o.

(** A configuration: variable names to string values. *)
Abbreviation Config := (list (str * str)).

(** A value entered at a prompt: a string, or the array of matches that
    [composeQuestion] installs as the default. *)
Inductive Answer : Type :=
  | AStr (s : str)
  | AArr (l : list str).

Abbreviation Answers := (list (str * Answer)).

(** ** The ConfigStore: [extractEnv], [loadConfig], [configExists] *)

Definition EQ : ascii := chr 61.
Definition HASH : ascii := chr 35.

Definition extractEnv (line : str) : str * option (list str) :=
  let envName := trim (slice line 0 (indexOf EQ line)) in
  let envValue :=
    match_runs
      (trim (slice line (indexOf EQ line + 1)%Z (Z.of_nat (length line)))) in
  (envName, envValue).

(** [envValue?.[0] ?? ''] *)
Definition first_or_empty (envValue : option (list str)) : str :=
  match envValue with
  | Some (x :: _) => x
  | _ => []
  end.

(** The body of [loadConfig] once the file has been read. *)
Definition parseConfig (content : str) : Config :=
  fold_left
    (fun (cfgObj : Config) (line : str) =>
       let '(envName, envValue) := extractEnv line in
       prop_set envName (first_or_empty envValue) cfgObj)
    (List.filter
       (fun line => negb (startsWith HASH line) && negb (bool_decide (trim line = [])))
       (split NL content))
    [].

(** Outcome of a call: a returned value or a thrown error. *)
Inductive outcome (A : Type) : Type :=
  | Returned (a : A)
  | Thrown (message : str).
Arguments Returned {A} a.
Arguments Thrown {A} message.

(** The file system: paths to contents. *)
Definition configExists (configPath : str) (files : gmap str str) : bool :=
  bool_decide (is_Some (files !! configPath)).

(** [loadConfig]: [readFileSync] throws when the file is missing; the
    closing [console.log] is left out. *)
Definition loadConfig (configPath : option str) (files : gmap str str) : outcome Config :=
  let actualConfigPath := default (js "./config.cfg") configPath in
  match files !! actualConfigPath with
  | Some content => Returned (parseConfig content)
  | None => Thrown (js "ENOENT")
  end.

(** String conversion of a value in a template literal: an array is joined
    with commas. *)
Fixpoint join (sep : str) (l : list str) : str :=
  match l with
  | [] => []
  | [x] => x
  | x :: t => x ++ sep ++ join sep t
  end.

Definition answer_text (a : Answer) : str :=
  match a with
  | AStr s => s
  | AArr l => join (js ",") l
  end.

(** Modelled from the spec: [buildEnv] of [utils], which is not among the
    sources.  Section 4.2: save serializes the mapping in insertion order
    as KEY=VALUE lines, values containing no further escaping. *)
Definition buildEnv (envVarValues : Answers) : str :=
  concat (map (fun kv : str * Answer => fst kv ++ [EQ] ++ answer_text (snd kv) ++ [NL])
            envVarValues).

(** Saving a configuration, then the text a later load reads. *)
Definition saveConfig (c : Config) : str :=
  buildEnv (map (fun kv : str * str => (fst kv, AStr (snd kv))) c).

(** ** The TemplateParser: [composeQuestion], [extractQuestions] *)

Definition COLOR_GRAY : str := ESC :: js "[30m".
Definition COLOR_CYAN : str := ESC :: js "[36m".
Definition COLOR_DEFAULT : str := ESC :: js "[0m".

(** The gear sign U+2699 of the prompt prefix lies outside the code units
    0..255; it is written as its three UTF-8 bytes. *)
Definition GEAR : str := [chr 226; chr 154; chr 153].

Record Question : Type := {
  q_prefix : str;
  q_name : str;
  q_message : str;
  q_type : str;
  q_default : option Answer
}.

(** [.length] of a string or of an array. *)
Definition answer_length (a : Answer) : nat :=
  match a with
  | AStr s => length s
  | AArr l => length l
  end.

Definition composeQuestion (line comment : str) : Question :=
  let envName := trim (slice line 0 (indexOf EQ line)) in
  let envDefaultValue :=
    match match_runs
            (trim (slice line (indexOf EQ line + 1)%Z (Z.of_nat (length line)))) with
    | Some m => AArr m
    | None => AStr []
    end in
  {| q_prefix := [NL] ++ comment ++ COLOR_CYAN ++ GEAR ++ COLOR_DEFAULT;
     q_name := envName;
     q_message := envName ++ js " =";
     q_type := js "input";
     q_default := if 0 <? answer_length envDefaultValue then Some envDefaultValue else None |}.

(** One iteration of the [forEach] of [extractQuestions]; the state is the
    pair of the two variables it mutates. *)
Definition extract_step (st : str * list Question) (line : str) : str * list Question :=
  let '(comment, envQuestions) := st in
  if startsWith HASH line then
    (comment ++ COLOR_GRAY ++ js "INFO: "
       ++ trim (slice line (indexOf HASH line + 1)%Z (Z.of_nat (length line)))
       ++ COLOR_DEFAULT ++ [NL],
     envQuestions)
  else ([], envQuestions ++ [composeQuestion line comment]).

Definition extractQuestions (envArray : list str) : list Question :=
  snd (fold_left extract_step envArray ([], [])).

(** The value a question contributes once answers are flattened
    ([Array.isArray(value) ? value[0] : value]); [None] is [undefined]. *)
Definition flatten_answer (value : Answer) : option str :=
  match value with
  | AArr l => head l
  | AStr s => Some s
  end.

(** ** Effects: the world a run acts on *)

Inductive Event : Type :=
  | EvAsk (name : str)              (* a prompt, by the name of its answer *)
  | EvQuestions (qs : list Question) (* the generated questions are asked *)
  | EvWrite (path content : str)    (* writeFileSync *)
  | EvExec (command : str)          (* a command that ran to completion *)
  | EvLog (message : str)           (* console.log *)
  | EvWarn (message : str)          (* console.warn *)
  | EvError (message : str).        (* console.error *)

(** [files] is the file system, [rng] the draws [Math.random] will return,
    [events] what has happened so far, oldest first. *)
Record World : Type := {
  files : gmap str str;
  rng : nat -> Q;
  events : list Event
}.

Definition emit (e : Event) (w : World) : World :=
  {| files := files w; rng := rng w; events := events w ++ [e] |}.

(** A write that succeeds.  The wizard writes to the file name entered,
    between [./] and [.cfg], in the working directory; a name that leads
    into a directory that does not exist makes the real call throw, and is
    excluded where a statement depends on the write. *)
Definition writeFileSync (path content : str) (w : World) : World :=
  {| files := <[path := content]> (files w);
     rng := rng w;
     events := events w ++ [EvWrite path content] |}.

Definition is_write (e : Event) : bool :=
  match e with EvWrite _ _ => true | _ => false end.

Definition is_warn (e : Event) : bool :=
  match e with EvWarn _ => true | _ => false end.

Definition is_ask (e : Event) : bool :=
  match e with EvAsk _ | EvQuestions _ => true | _ => false end.

Definition count_writes (l : list Event) : nat := length (List.filter is_write l).

(** A computation that may log, read the world, and throw. *)
Definition Run (A : Type) : Type := World -> outcome A * World.

Global Instance run_ret : MRet Run := fun A a w => (Returned a, w).

Global Instance run_bind : MBind Run := fun A B k m w =>
  match m w with
  | (Returned a, w') => k a w'
  | (Thrown e, w') => (Thrown e, w')
  end.

Definition say (e : Event) : Run unit := fun w => (Returned tt, emit e w).

Definition throw {A : Type} (message : str) : Run A := fun w => (Thrown message, w).

(** [try { body } catch (error) { handler }] *)
Definition try_catch {A : Type} (body : Run A) (handler : Run A) : Run A := fun w =>
  match body w with
  | (Returned a, w') => (Returned a, w')
  | (Thrown _, w') => handler w'
  end.

(** [Math.random()] *)
Definition random : Run Q := fun w =>
  (Returned (rng w 0),
   {| files := files w; rng := fun n => rng w (S n); events := events w |}).

(** ** [generateRandomGcpProjectId] *)

Definition prefix : str := js "sipgateio-".
Definition characters : str := js "abcdefghijklmnopqrstuvwxyz0123456789".
Definition projectIdLength : Z := (30 - Z.of_nat (length prefix))%Z.

(** [s[i]] for a numeric index; [None] is [undefined]. *)
Definition char_at (s : str) (i : Z) : option ascii :=
  if (i <? 0)%Z then None else s !! Z.to_nat i.

(** [Math.floor(Math.random() * characters.length)], with the product
    taken exactly.  The code floors the product rounded to a double: for a
    draw just below some k/36 the rounded product can be k itself, so the
    code's index can be one more than this one there; it stays below 36,
    the rounded product of 36 and the largest double below 1 being below
    36. *)
Definition randomIndex (r : Q) : Z := Qfloor (r * inject_Z (Z.of_nat (length characters))).

(** The [for] loop: [n] iterations remain. *)
Fixpoint random_loop (n : nat) (randomChars : list (option ascii)) : Run (list (option ascii)) :=
  match n with
  | O => mret randomChars
  | S n' =>
      r ← random;
      random_loop n' (randomChars ++ [char_at characters (randomIndex r)])
  end.

(** [randomChars.join('')]: an [undefined] element contributes nothing. *)
Definition join_chars (l : list (option ascii)) : str :=
  concat (map (fun o : option ascii => match o with Some c => [c] | None => [] end) l).

Definition generateRandomGcpProjectId : Run str :=
  randomChars ← random_loop (Z.to_nat projectIdLength) [];
  mret (prefix ++ join_chars randomChars).

(** ** The catalog: fuzzy filter and rendering *)

Record ProjectData : Type := {
  repository : str;
  description : str;
  tabOffset : option nat
}.

(** [input?.toLowerCase() ?? ''] *)
Definition query_of (input : option str) : str :=
  default [] (toLowerCase <$> input).

(** The predicate of the [filter] in the autocomplete source. *)
Definition catalog_match (input : option str) (project : ProjectData) : bool :=
  includes (toLowerCase (repository project)) (query_of input)
  || includes (toLowerCase (description project)) (query_of input).

(** The line shown for one project. *)
Definition render_project (project : ProjectData) : str :=
  repository project
    ++ repeat_tab (default 1 (tabOffset project))
    ++ COLOR_GRAY ++ js " - "
    ++ (if bool_decide (description project = js "null") then []
        else slice (description project) 0 101
               ++ (if 101 <? length (description project) then js "..." else []))
    ++ COLOR_DEFAULT.

(** The [source] callback of [selectSipgateIOProject] and of [startCLI]. *)
Definition catalog_source (githubProjects : list ProjectData) (input : option str) : list str :=
  map render_project (List.filter (catalog_match input) githubProjects).

(** The catalog with [tabOffset] recomputed from [calculateTabs]. *)
Definition with_tab_offsets (githubProjects : list ProjectData) : list ProjectData :=
  let tabs := calculateTabs (map repository githubProjects) in
  imap (fun index project =>
          {| repository := repository project;
             description := description project;
             tabOffset := tabs !! index |})
       githubProjects.

(** ** The ConfirmationWizard: [interactivelyGenerateConfig] *)

(** What the user enters during one pass through the prompts.
    [confirmoverwrite] is consulted only when that prompt is reached. *)
Record Round : Type := {
  envVarValues : Answers;
  filename : str;
  confirm : bool;
  confirmoverwrite : bool
}.

Definition config_path (name : str) : str := js "./" ++ name ++ js ".cfg".

(** The [forEach] that builds [resultConfig].  [Object.entries] lists the
    answers in own-property order, on which appending new names is what
    the assignment does. *)
Definition resultConfig_of (values : Answers) : list (str * option str) :=
  fold_left
    (fun resultConfig (kv : str * Answer) =>
       obj_set (fst kv) (flatten_answer (snd kv)) resultConfig)
    values [].

Section Wizard.

(** Of [constants] and [fetch], which are not among the sources. *)
Variable COLOR_YELLOW : str.
Variable readExampleConfig : list str.

(** The recursion follows the script of user input: each retry consumes
    one round, and a script that ends before the wizard does leaves it
    waiting at a prompt ([None]). *)
Fixpoint interactivelyGenerateConfig (script : list Round) (w : World)
  : option (list (str * option str) * World) :=
  match script with
  | [] => None
  | r :: later =>
      let envArray := readExampleConfig in
      let envQuestions := extractQuestions envArray in
      let w := emit (EvQuestions envQuestions) w in
      let w := emit (EvAsk (js "filename")) w in
      let w := emit (EvAsk (js "confirm")) w in
      if negb (confirm r) then interactivelyGenerateConfig later w
      else
        let after_overwrite_check (w : World) :=
          if negb (confirm r) then interactivelyGenerateConfig later w
          else
            let w := writeFileSync (config_path (filename r))
                       (buildEnv (envVarValues r)) w in
            Some (resultConfig_of (envVarValues r), w) in
        if configExists (config_path (filename r)) (files w) then
          let w := emit (EvAsk (js "confirmoverwrite")) w in
          if confirmoverwrite r then
            after_overwrite_check
              (writeFileSync (config_path (filename r))
                 (buildEnv (envVarValues r)) w)
          else
            interactivelyGenerateConfig later
              (emit (EvWarn (COLOR_YELLOW ++ js "[WARN] Aborting..." ++ COLOR_DEFAULT)) w)
        else after_overwrite_check w
  end.

End Wizard.

(** ** The ValidatedFieldSelector: regions, cloud projects, examples *)

Definition DQ : ascii := chr 34.
Definition SLASH : ascii := chr 47.
Definition DOT : ascii := chr 46.

(** [value ?? fallback] inside a template literal. *)
Definition show_or (fallback : str) (value : option str) : str := default fallback value.

(** A string is truthy when it is defined and not empty. *)
Definition truthy (value : option str) : bool :=
  match value with
  | Some (_ :: _) => true
  | _ => false
  end.

(** The traversal pattern of [selectGoogleCloudProject]: two dots that
    start the string or follow a slash, and end it or precede a slash. *)
Definition dotdot_here (s : str) : bool :=
  match s with
  | a :: b :: rest =>
      Ascii.eqb a DOT && Ascii.eqb b DOT
      && match rest with [] => true | c :: _ => Ascii.eqb c SLASH end
  | _ => false
  end.

Fixpoint traversal_from (at_start : bool) (s : str) : bool :=
  (at_start && dotdot_here s)
  || match s with
     | [] => false
     | c :: t => traversal_from (Ascii.eqb c SLASH) t
     end.

Definition has_traversal (s : str) : bool := traversal_from true s.

Definition logUsedConfig (key : str) (value : option str) : Run unit :=
  say (EvLog (js "Using " ++ key ++ [EQ] ++ show_or (js "*********") value
              ++ js " from config file.")).

Section Selectors.

Variable COLOR_YELLOW : str.

(** The command collaborator: the standard output of a command, or
    [None] when it exits with an error. *)
Variable commands : str -> option str.

Definition execCommand (command : str) : Run str := fun w =>
  match commands command with
  | Some stdout => (Returned stdout, emit (EvExec command) w)
  | None => (Thrown (js "Command failed: " ++ command), w)
  end.

Definition createGoogleCloudProject (name : str) : Run bool :=
  try_catch
    (projectId ← generateRandomGcpProjectId;
     say (EvLog (js "Creating new GCP project with the name: " ++ name
                 ++ js " and the project ID: " ++ projectId ++ js "...")) ;;
     execCommand (js "gcloud projects create " ++ projectId ++ js " --name="
                  ++ [DQ] ++ name ++ [DQ]) ;;
     mret true)
    (say (EvError (js "Could not create GCP project. Please check if the project ID is (globally) unique and valid.")) ;;
     mret false).

Definition gcloudSetProject (name : str) : Run str :=
  execCommand (js "gcloud config set project " ++ name) ;;
  say (EvWarn (COLOR_YELLOW ++ js "[WARN] Important: Check if Cloud Build API is enabled for "
               ++ name ++ COLOR_DEFAULT)) ;;
  mret name.

(** The end of [selectGoogleCloudProject], from the answer to the prompt
    on: a name that the listing does not show is created first. *)
Definition project_after_prompt (stdout selectedProject : str) : Run str :=
  (if negb (includes stdout selectedProject) then
     creationSuccess ← createGoogleCloudProject selectedProject;
     if negb creationSuccess then throw (js "Failed to create a new GCP project.")
     else mret tt
   else mret tt) ;;
  gcloudSetProject selectedProject.

(** [selectedProject] is what the user finally submits at the
    autocomplete prompt. *)
Definition selectGoogleCloudProject (config : Config) (selectedProject : str) : Run str :=
  say (EvLog (js "Fetching Google Cloud projects...")) ;;
  stdout ← execCommand (js "gcloud projects list --format=" ++ [DQ]
                        ++ js "value(projectId)" ++ [DQ]);
  let projectName := trim <$> obj_get (js "GOOGLE_PROJECT_NAME") config in
  let isValidProjectName :=
    includes stdout (default [] projectName)
    && negb (default false (has_traversal <$> projectName)) in
  if truthy projectName && isValidProjectName then
    logUsedConfig (js "GOOGLE_PROJECT_NAME") projectName ;;
    gcloudSetProject (default [] projectName)
  else
    (if negb isValidProjectName then
       say (EvWarn (COLOR_YELLOW ++ js "[WARN] Invalid GOOGLE_PROJECT_NAME="
                    ++ show_or (js "undefined") projectName ++ js " in config."
                    ++ COLOR_DEFAULT))
     else mret tt) ;;
    say (EvAsk (js "selectedProject")) ;;
    project_after_prompt stdout selectedProject.

(** [selectedRegion] is the entry the user picks at the prompt. *)
Definition selectGCPRegion (config : Config) (selectedRegion : str) : Run (option str) :=
  say (EvLog (js "Fetching Google Cloud regions...")) ;;
  stdout ← execCommand (js "gcloud app regions list --format=" ++ [DQ]
                        ++ js "value(region)" ++ [DQ]);
  let region := obj_get (js "GOOGLE_PROJECT_REGION") config in
  let isInvalidRegion := negb (includes stdout (default [] region)) in
  if bool_decide (region = Some []) || bool_decide (region = None) || isInvalidRegion then
    (if isInvalidRegion then
       say (EvWarn (COLOR_YELLOW ++ js "[WARN] Invalid GOOGLE_PROJECT_REGION="
                    ++ show_or (js "undefined") region ++ js " in config."
                    ++ COLOR_DEFAULT))
     else mret tt) ;;
    say (EvAsk (js "selectedRegion")) ;;
    mret (Some selectedRegion)
  else
    logUsedConfig (js "GOOGLE_PROJECT_REGION") region ;;
    mret region.

(** The [source] callback of the region prompt. *)
Definition region_source (stdout : str) (input : option str) : list str :=
  List.filter (fun name => includes (toLowerCase name) (query_of input))
    (split NL stdout).

(** [githubProjects] is what [getProjectList] fetched, [selectedProject]
    the rendered line the user picks. *)
Definition selectSipgateIOProject (config : Config) (githubProjects : list ProjectData)
    (selectedProject : str) : Run str :=
  let projectName := trim <$> obj_get (js "EXAMPLE_REPO_NAME") config in
  let isValidProjectName :=
    negb (truthy projectName)
    || bool_decide (Exists (fun x => Some (repository x) = projectName) githubProjects) in
  if truthy projectName && isValidProjectName then
    logUsedConfig (js "EXAMPLE_REPO_NAME") projectName ;;
    mret (default [] projectName)
  else
    (if negb isValidProjectName then
       say (EvWarn (COLOR_YELLOW ++ js "[WARN] Invalid EXAMPLE_REPO_NAME="
                    ++ show_or (js "undefined") projectName ++ js " in config."
                    ++ COLOR_DEFAULT))
     else mret tt) ;;
    say (EvAsk (js "selectedProject")) ;;
    mret (trim (slice selectedProject 0 (indexOf TAB selectedProject))).

(** The validation warning for a configured value. *)
Definition invalid_warning (key value : str) : Event :=
  EvWarn (COLOR_YELLOW ++ js "[WARN] Invalid " ++ key ++ [EQ] ++ value
          ++ js " in config." ++ COLOR_DEFAULT).

End Selectors.

Definition regions_command : str :=
  js "gcloud app regions list --format=" ++ [DQ] ++ js "value(region)" ++ [DQ].

Definition projects_command : str :=
  js "gcloud projects list --format=" ++ [DQ] ++ js "value(projectId)" ++ [DQ].

Definition set_project_command (name : str) : str := js "gcloud config set project " ++ name.

Definition using_config (key value : str) : Event :=
  EvLog (js "Using " ++ key ++ [EQ] ++ value ++ js " from config file.").

Definition REGION_KEY : str := js "GOOGLE_PROJECT_REGION".
Definition PROJECT_KEY : str := js "GOOGLE_PROJECT_NAME".

(** ** The rest of the command line entry file *)

(** [parseStringToArray]: the trimmed, non-empty lines of a text. *)
Definition parseStringToArray (s : str) : list str :=
  List.filter (fun line => 0 <? length line) (map trim (split NL s)).

(** [gCloudCloneGitRepository]: the function of the entry file has its
    own promisified [exec], the same collaborator as [execCommand]. *)
Definition gCloudCloneGitRepository (commands : str -> option str) (project : str) : Run bool :=
  try_catch
    (execCommand commands (js "rm -rf " ++ project) ;;
     execCommand commands
       (js "git clone git@github.com:sipgate-io/" ++ project ++ js ".git") ;;
     mret true)
    (say (EvLog (js "Google Cloud could not clone Github Repository.")) ;;
     mret false).

(** ** [selectLocalProject] *)

(** [existsSync] *)
Definition existsSync (path : str) (fs : gmap str str) : bool :=
  bool_decide (is_Some (fs !! path)).

(** [repoPath.replace(re, '')] for the pattern of one slash at the end of
    the text. *)
Definition strip_trailing_slash (s : str) : str :=
  match rev s with
  | c :: r => if Ascii.eqb c SLASH then rev r else s
  | [] => s
  end.

(** [answers] is what the user types at the successive [repoPath] prompts.
    A call asks once and may call itself up to twice, each nested call
    consuming further answers; its result is the path, the answers left
    and the world.  [fuel] bounds the nesting; [None] is a wizard still
    waiting for an answer. *)
Fixpoint selectLocalProject_fuel (COLOR_YELLOW : str) (fuel : nat) (answers : list str)
    (w : World) : option (str * list str * World) :=
  match fuel with
  | O => None
  | S fuel' =>
      match answers with
      | [] => None
      | repoPath :: rest =>
          let w := emit (EvAsk (js "repoPath")) w in
          let cleanedPath := strip_trailing_slash repoPath in
          let after_first :=
            if negb (existsSync cleanedPath (files w)) then
              match selectLocalProject_fuel COLOR_YELLOW fuel' rest
                      (emit (EvWarn (COLOR_YELLOW ++ js "[WARN] Please choose an existing Path.")) w) with
              | Some (_, rest', w') => Some (rest', w')
              | None => None
              end
            else Some (rest, w) in
          match after_first with
          | None => None
          | Some (rest1, w1) =>
              let after_second :=
                if negb (existsSync (cleanedPath ++ js "/app.yaml") (files w1)) then
                  match selectLocalProject_fuel COLOR_YELLOW fuel' rest1
                          (emit (EvLog (js "Invalid Repository. Please select a path which contains an app.yaml config file.")) w1) with
                  | Some (_, rest', w') => Some (rest', w')
                  | None => None
                  end
                else Some (rest1, w1) in
              match after_second with
              | None => None
              | Some (rest2, w2) => Some (cleanedPath, rest2, w2)
              end
          end
      end
  end.

(** Every call consumes an answer, so the nesting never exceeds the number
    of answers. *)
Definition selectLocalProject (COLOR_YELLOW : str) (answers : list str) (w : World)
  : option (str * list str * World) :=
  selectLocalProject_fuel COLOR_YELLOW (S (length answers)) answers w.

(** ** The earlier copy of the entry file *)

Module Legacy.

Definition githubProjectNames : list str :=
  [js "sipgateio-incomingcall-node"; js "sipgateio-incomingcall-python";
   js "sipgateio-sendsms-node"].

Definition composeQuestion (line comment : str) : Question :=
  let envName := trim (slice line 0 (indexOf EQ line)) in
  let envDefaultValue :=
    match match_runs
            (trim (slice line (indexOf EQ line + 1)%Z (Z.of_nat (length line)))) with
    | Some m => AArr m
    | None => AStr []
    end in
  {| q_prefix := comment ++ (ESC :: js "[36m") ++ GEAR ++ (ESC :: js "[0m");
     q_name := envName;
     q_message := envName ++ js " =";
     q_type := js "input";
     q_default := if 0 <? answer_length envDefaultValue then Some envDefaultValue else None |}.

Definition extract_step (st : str * list Question) (line : str) : str * list Question :=
  let '(comment, envQuestions) := st in
  if startsWith HASH line then
    (comment ++ js "INFO: "
       ++ trim (slice line (indexOf HASH line + 1)%Z (Z.of_nat (length line)))
       ++ js " " ++ [NL],
     envQuestions)
  else ([], envQuestions ++ [composeQuestion line comment]).

Definition extractQuestions (envArray : list str) : list Question :=
  snd (fold_left extract_step envArray ([], [])).

(** The [source] callback of its prompt: a case-sensitive filter. *)
Definition source (input : option str) : list str :=
  List.filter (fun projects => includes projects (default [] input)) githubProjectNames.

End Legacy.

(** ** Vocabulary of the statements *)

(** A name that a plain object treats like any other: not an array index
    and not [__proto__]. *)
Definition ordinary_key (k : str) : bool :=
  negb (is_array_index k) && negb (bool_decide (k = PROTO)).

(** A key that survives a save and a load unchanged: no equals sign, no
    line break, no surrounding white space, no leading hash sign, and an
    ordinary name. *)
Definition clean_key (k : str) : bool :=
  forallb (fun c => negb (Ascii.eqb c EQ) && negb (Ascii.eqb c NL)) k
  && bool_decide (trim k = k)
  && negb (startsWith HASH k)
  && ordinary_key k.

(** A value that survives: no quote character, no line break, no
    surrounding white space. *)
Definition clean_value (v : str) : bool :=
  forallb (fun c => negb (is_quote c) && negb (Ascii.eqb c NL)) v
  && bool_decide (trim v = v).

Definition clean_config (c : Config) : bool :=
  bool_decide (NoDup (obj_keys c))
  && forallb (fun kv : str * str => clean_key (fst kv) && clean_value (snd kv)) c.

(** The line [saveConfig] writes for one entry. *)
Definition entry_line (kv : str * str) : str := fst kv ++ [EQ] ++ snd kv.

(** The lines of a configuration file that [loadConfig] interprets. *)
Definition config_lines (content : str) : list str :=
  List.filter
    (fun line => negb (startsWith HASH line) && negb (bool_decide (trim line = [])))
    (split NL content).

(** What one interpreted line assigns. *)
Definition load_step (cfgObj : Config) (line : str) : Config :=
  let '(envName, envValue) := extractEnv line in
  prop_set envName (first_or_empty envValue) cfgObj.

Abbreviation nq := (fun c : ascii => negb (is_quote c)).

(** [s] holds the character [c]. *)
Definition has_char (c : ascii) (s : str) : bool := existsb (fun x => Ascii.eqb x c) s.

(** [r] is the first maximal run of [s] without a quote character: only
    quote characters come before it, it is not empty, it holds no quote
    character, and it ends at a quote character or at the end of [s]. *)
Definition first_quote_free_run (s r : str) : Prop :=
  exists pre post,
    s = pre ++ r ++ post
    /\ forallb is_quote pre = true
    /\ r <> []
    /\ forallb (fun c => negb (is_quote c)) r = true
    /\ match post with [] => True | c :: _ => is_quote c = true end.

(** [s] contains [q] as a substring when case is ignored. *)
Definition ci_contains (s q : str) : Prop :=
  exists pre post, toLowerCase s = pre ++ toLowerCase q ++ post.

(** A lowercase letter a-z or a digit 0-9. *)
Definition is_id_char (c : ascii) : bool :=
  let n := nat_of_ascii c in
  ((97 <=? n) && (n <=? 122)) || ((48 <=? n) && (n <=? 57)).

(** Every draw of [Math.random] lies in the interval from 0 (included) to
    1 (excluded). *)
Definition unit_draws (g : nat -> Q) : Prop :=
  forall i, (0 <= g i)%Q /\ (g i < 1)%Q.

(** The world after further events, files and random draws untouched. *)
Definition after_events (es : list Event) (w : World) : World :=
  {| files := files w; rng := rng w; events := events w ++ es |}.

(** The prompts of one pass of the wizard up to the review question. *)
Definition review_prompts (template : list str) : list Event :=
  [EvQuestions (extractQuestions template); EvAsk (js "filename"); EvAsk (js "confirm")].

(** The help line that one comment line of a template contributes. *)
Definition info_line (line : str) : str :=
  COLOR_GRAY ++ js "INFO: "
    ++ trim (slice line (indexOf HASH line + 1)%Z (Z.of_nat (length line)))
    ++ COLOR_DEFAULT ++ [NL].

(** A round that ends the wizard on the file system [fs]: the review is
    confirmed, and the destination is new or its overwrite is confirmed. *)
Definition commits (fs : gmap str str) (r : Round) : bool :=
  confirm r
  && (negb (configExists (config_path (filename r)) fs) || confirmoverwrite r).

(** What a question is apart from its decoration. *)
Definition question_core (q : Question) : str * str * str * option Answer :=
  (q_name q, q_message q, q_type q, q_default q).

Definition create_project_command (projectId name : str) : str :=
  js "gcloud projects create " ++ projectId ++ js " --name=" ++ [DQ] ++ name ++ [DQ].

Definition creating_project (projectId name : str) : Event :=
  EvLog (js "Creating new GCP project with the name: " ++ name
         ++ js " and the project ID: " ++ projectId ++ js "...").

Definition creation_failed : Event :=
  EvError (js "Could not create GCP project. Please check if the project ID is (globally) unique and valid.").

(** What the example selector returns for the line the user picked. *)
Definition picked_key (selectedProject : str) : str :=
  trim (slice selectedProject 0 (indexOf TAB selectedProject)).

(** [runs] are the maximal runs of [s] without a quote character, in
    order: [s] is quote characters, a run, and then the same again from a
    quote character on, down to a rest of quote characters only. *)
Inductive quote_free_runs : str -> list str -> Prop :=
  | runs_none (s : str) :
      forallb is_quote s = true -> quote_free_runs s []
  | runs_cons (pre r post : str) (rs : list str) :
      forallb is_quote pre = true ->
      r <> [] ->
      forallb (fun c => negb (is_quote c)) r = true ->
      match post with [] => True | c :: _ => is_quote c = true end ->
      quote_free_runs post rs ->
      quote_free_runs (pre ++ r ++ post) (r :: rs).

(** What a round that does not end the wizard on [fs] makes it say: the
    prompts up to the review, and for a confirmed review (the destination
    then exists and its overwrite is declined) the overwrite question and
    the warning. *)
Definition declined_events (COLOR_YELLOW : str) (template : list str) (d : Round) : list Event :=
  review_prompts template
    ++ (if confirm d
        then [EvAsk (js "confirmoverwrite");
              EvWarn (COLOR_YELLOW ++ js "[WARN] Aborting..." ++ COLOR_DEFAULT)]
        else []).

(** What the round that ends the wizard on [fs] makes it say and do. *)
Definition commit_events (template : list str) (fs : gmap str str) (r : Round) : list Event :=
  let write := EvWrite (config_path (filename r)) (buildEnv (envVarValues r)) in
  review_prompts template
    ++ (if configExists (config_path (filename r)) fs
        then [EvAsk (js "confirmoverwrite"); write; write]
        else [write]).

(** * Properties *)

(** ** Strings *)

Section StringFacts.

Implicit Types (s t q : str) (c : ascii) (p : ascii -> bool).

Lemma ascii_eqb_true c c' : Ascii.eqb c c' = true <-> c = c'.
Proof. apply Ascii.eqb_eq. Qed.

Lemma ascii_eqb_false c c' : Ascii.eqb c c' = false <-> c <> c'.
Proof. apply Ascii.eqb_neq. Qed.

Lemma take_drop_while p s : take_while p s ++ drop_while p s = s.
Proof. induction s as [|c t IH]; simpl; [done|]. destruct (p c); simpl; by rewrite ?IH. Qed.

Lemma drop_while_all p s : forallb p s = true -> drop_while p s = [].
Proof.
  induction s as [|c t IH]; simpl; [done|].
  intros [Hc Ht]%andb_prop. rewrite Hc. auto.
Qed.

Lemma drop_while_head p c s : p c = false -> drop_while p (c :: s) = c :: s.
Proof. intros H. simpl. by rewrite H. Qed.

Lemma drop_while_keeps p c s : c ∈ s -> p c = false -> c ∈ drop_while p s.
Proof.
  induction s as [|x t IH]; simpl; [done|].
  intros Hin Hc. destruct (p x) eqn:Hx; [|done].
  apply elem_of_cons in Hin as [->|Hin]; [congruence|auto].
Qed.

Lemma trim_nonempty c s : c ∈ s -> is_ws c = false -> trim s <> [].
Proof.
  intros Hin Hc. unfold trim, trimEnd, trimStart.
  pose proof (drop_while_keeps is_ws c s Hin Hc) as H1.
  assert (c ∈ rev (drop_while is_ws s)) as H2.
  { apply list_elem_of_In, in_rev. rewrite rev_involutive. by apply list_elem_of_In. }
  pose proof (drop_while_keeps is_ws c _ H2 Hc) as H3.
  intros Heq. apply (f_equal (@rev ascii)) in Heq.
  rewrite rev_involutive in Heq. rewrite Heq in H3. simpl in H3.
  by apply elem_of_nil in H3.
Qed.

Lemma trim_nil : trim [] = [].
Proof. reflexivity. Qed.

(** [indexOf] on a string whose first occurrence is known. *)
Lemma indexOf_from_app c s t i :
  forallb (fun x => negb (Ascii.eqb x c)) s = true ->
  indexOf_from c (s ++ c :: t) i = (i + Z.of_nat (length s))%Z.
Proof.
  revert i. induction s as [|x s IH]; intros i Hs; simpl in *.
  - rewrite Ascii.eqb_refl. lia.
  - apply andb_prop in Hs as [Hx Hs]. apply negb_true_iff in Hx. rewrite Hx.
    rewrite IH by done. lia.
Qed.

Lemma indexOf_from_absent c s i :
  forallb (fun x => negb (Ascii.eqb x c)) s = true -> indexOf_from c s i = (-1)%Z.
Proof.
  revert i. induction s as [|x s IH]; intros i Hs; simpl in *; [done|].
  apply andb_prop in Hs as [Hx Hs]. apply negb_true_iff in Hx. rewrite Hx. auto.
Qed.

Lemma clamp_index_inside len i : (0 <= i <= len)%Z -> clamp_index len i = i.
Proof.
  intros H. unfold clamp_index.
  destruct (Z.ltb_spec i 0); [lia|]. apply Z.min_l. lia.
Qed.

Lemma slice_prefix s t : slice (s ++ t) 0 (Z.of_nat (length s)) = s.
Proof.
  unfold slice. rewrite length_app.
  rewrite !clamp_index_inside by lia.
  rewrite Z.sub_0_r, Nat2Z.id. change (Z.to_nat 0) with 0.
  by rewrite drop_0, take_app_length.
Qed.

Lemma slice_suffix s c t :
  slice (s ++ c :: t) (Z.of_nat (length s) + 1) (Z.of_nat (length (s ++ c :: t))) = t.
Proof.
  unfold slice. rewrite length_app. simpl length.
  rewrite !clamp_index_inside by lia.
  replace (Z.to_nat (Z.of_nat (length s) + 1)) with (length s + 1) by lia.
  replace (Z.to_nat (Z.of_nat (length s + S (length t)) - (Z.of_nat (length s) + 1)))
    with (length t) by lia.
  rewrite <- drop_drop, drop_app_length. simpl drop. by rewrite firstn_all.
Qed.

Lemma slice_whole s : slice s 0 (Z.of_nat (length s)) = s.
Proof. rewrite <- (app_nil_r s) at 1. rewrite slice_prefix. done. Qed.

(** [split] on text made of terminated lines. *)
Lemma split_line c s t :
  forallb (fun x => negb (Ascii.eqb x c)) s = true ->
  split c (s ++ c :: t) = s :: split c t.
Proof.
  induction s as [|x s IH]; intros Hs; simpl in *.
  - by rewrite Ascii.eqb_refl.
  - apply andb_prop in Hs as [Hx Hs]. apply negb_true_iff in Hx.
    rewrite Hx, IH by done. done.
Qed.

Lemma split_lines c (ls : list str) :
  Forall (fun l => forallb (fun x => negb (Ascii.eqb x c)) l = true) ls ->
  split c (concat (map (fun l => l ++ [c]) ls)) = ls ++ [[]].
Proof.
  induction 1 as [|l ls Hl _ IH]; simpl; [done|].
  rewrite <- app_assoc. simpl. rewrite split_line by done. by rewrite IH.
Qed.

(** The matcher: runs of an accumulator and a quote-free remainder. *)
Lemma scan_runs_quote_free s cur :
  forallb (fun c => negb (is_quote c)) s = true ->
  scan_runs s cur = match rev cur ++ s with [] => [] | r => [r] end.
Proof.
  revert cur. induction s as [|c s IH]; intros cur Hs; simpl in *.
  - rewrite app_nil_r. destruct cur as [|x cur]; simpl; [done|].
    destruct (rev cur ++ [x]) eqn:E; [by destruct (rev cur)|done].
  - apply andb_prop in Hs as [Hc Hs]. apply negb_true_iff in Hc. rewrite Hc.
    rewrite IH by done. simpl. by rewrite <- app_assoc.
Qed.

Lemma match_runs_quote_free s :
  forallb (fun c => negb (is_quote c)) s = true ->
  match_runs s = match s with [] => None | _ => Some [s] end.
Proof.
  intros Hs. unfold match_runs. rewrite scan_runs_quote_free by done.
  simpl. by destruct s.
Qed.

End StringFacts.

(** ** The ConfigStore *)

Section ConfigStore.

Implicit Types (k v line : str) (c acc : Config).

Lemma obj_set_fresh {V : Type} k (x : V) (o : list (str * V)) :
  k ∉ obj_keys o -> obj_set k x o = o ++ [(k, x)].
Proof.
  induction o as [|[k' x'] o IH]; simpl; [done|].
  intros Hk. apply not_elem_of_cons in Hk as [Hne Hk].
  destruct (decide (k' = k)); [congruence|]. by rewrite IH.
Qed.

Lemma obj_get_set_eq {V : Type} k (x : V) (o : list (str * V)) :
  obj_get k (obj_set k x o) = Some x.
Proof.
  induction o as [|[k' x'] o IH]; simpl.
  - by rewrite decide_True.
  - destruct (decide (k' = k)) as [->|Hne]; simpl.
    + by rewrite decide_True.
    + by rewrite decide_False.
Qed.

Lemma obj_get_set_ne {V : Type} k k0 (x : V) (o : list (str * V)) :
  k <> k0 -> obj_get k0 (obj_set k x o) = obj_get k0 o.
Proof.
  intros Hne. induction o as [|[k' x'] o IH]; simpl.
  - by rewrite decide_False.
  - destruct (decide (k' = k)) as [->|Hne']; simpl.
    + by rewrite !decide_False.
    + destruct (decide (k' = k0)); done.
Qed.

Lemma obj_keys_insert_index {V : Type} k (x : V) (o : list (str * V)) k0 :
  k0 ∈ obj_keys (insert_index k x o) <-> k0 = k \/ k0 ∈ obj_keys o.
Proof.
  induction o as [|[k' x'] o IH]; cbn [insert_index obj_keys map fst].
  - rewrite list_elem_of_singleton. split; [by left|]. intros [?|?%elem_of_nil]; done.
  - destruct (is_array_index k' && (digits_value k' <? digits_value k)%N);
      cbn [map fst]; rewrite !elem_of_cons; [|tauto].
    unfold obj_keys in IH. rewrite IH. tauto.
Qed.

Lemma insert_index_nodup {V : Type} k (x : V) (o : list (str * V)) :
  k ∉ obj_keys o -> NoDup (obj_keys o) -> NoDup (obj_keys (insert_index k x o)).
Proof.
  induction o as [|[k' x'] o IH]; cbn [insert_index obj_keys map fst]; intros Hk Hnd.
  - apply NoDup_singleton.
  - destruct (is_array_index k' && (digits_value k' <? digits_value k)%N);
      cbn [map fst].
    + apply not_elem_of_cons in Hk as [Hne Hk]. apply NoDup_cons in Hnd as [Hk' Hnd].
      apply NoDup_cons. split; [|by apply IH].
      intros [?|?]%obj_keys_insert_index; done.
    + by apply NoDup_cons.
Qed.

Lemma obj_get_insert_index_eq {V : Type} k (x : V) (o : list (str * V)) :
  k ∉ obj_keys o -> obj_get k (insert_index k x o) = Some x.
Proof.
  induction o as [|[k' x'] o IH]; cbn [insert_index obj_keys map fst]; intros Hk.
  - cbn. by rewrite decide_True.
  - apply not_elem_of_cons in Hk as [Hne Hk].
    destruct (is_array_index k' && (digits_value k' <? digits_value k)%N); cbn [obj_get].
    + rewrite decide_False by done. by apply IH.
    + by rewrite decide_True.
Qed.

Lemma obj_get_insert_index_ne {V : Type} k k0 (x : V) (o : list (str * V)) :
  k <> k0 -> obj_get k0 (insert_index k x o) = obj_get k0 o.
Proof.
  intros Hne. induction o as [|[k' x'] o IH]; cbn [insert_index].
  - cbn. by rewrite decide_False.
  - destruct (is_array_index k' && (digits_value k' <? digits_value k)%N); cbn [obj_get].
    + by rewrite IH.
    + by rewrite decide_False.
Qed.

(** For an ordinary name the assignment is [obj_set]. *)
Lemma prop_set_ordinary {V : Type} k (x : V) (o : list (str * V)) :
  ordinary_key k = true -> prop_set k x o = obj_set k x o.
Proof.
  unfold ordinary_key, prop_set. intros [Hi Hp]%andb_prop.
  apply negb_true_iff in Hi, Hp. by rewrite Hp, Hi.
Qed.

Lemma prop_set_proto {V : Type} (x : V) (o : list (str * V)) : prop_set PROTO x o = o.
Proof. unfold prop_set. by rewrite bool_decide_eq_true_2. Qed.

Lemma obj_get_prop_set_eq {V : Type} k (x : V) (o : list (str * V)) :
  k <> PROTO -> obj_get k (prop_set k x o) = Some x.
Proof.
  intros Hk. unfold prop_set. rewrite bool_decide_eq_false_2 by done.
  destruct (is_array_index k); cbn [andb]; [|apply obj_get_set_eq].
  case_bool_decide as Hin; cbn [negb]; [apply obj_get_set_eq|].
  by apply obj_get_insert_index_eq.
Qed.

Lemma obj_get_prop_set_ne {V : Type} k k0 (x : V) (o : list (str * V)) :
  k <> k0 -> obj_get k0 (prop_set k x o) = obj_get k0 o.
Proof.
  intros Hne. unfold prop_set. case_bool_decide; [done|].
  destruct (is_array_index k && negb (bool_decide (k ∈ obj_keys o))).
  - by apply obj_get_insert_index_ne.
  - by apply obj_get_set_ne.
Qed.

Lemma fold_obj_set_fresh c acc :
  NoDup (obj_keys (acc ++ c)) ->
  fold_left (fun o (kv : str * str) => obj_set (fst kv) (snd kv) o) c acc = acc ++ c.
Proof.
  revert acc. induction c as [|[k v] c IH]; intros acc Hnd; simpl.
  - by rewrite app_nil_r.
  - assert (k ∉ obj_keys acc) as Hk.
    { unfold obj_keys in Hnd. rewrite map_app in Hnd. simpl in Hnd.
      apply NoDup_app in Hnd as (_ & Hdis & _).
      intros Hin. apply (Hdis k Hin). left. }
    rewrite obj_set_fresh by done.
    rewrite IH; rewrite <- app_assoc; done.
Qed.

Lemma forallb_both {A : Type} (f g : A -> bool) (l : list A) :
  forallb (fun x => f x && g x) l = forallb f l && forallb g l.
Proof.
  induction l as [|x l IH]; simpl; [done|]. rewrite IH.
  destruct (f x), (g x), (forallb f l); done.
Qed.

(** The line written for one clean entry reads back as that entry. *)
Lemma extractEnv_clean k v :
  clean_key k = true -> clean_value v = true ->
  extractEnv (entry_line (k, v)) = (k, match_runs v).
Proof.
  unfold clean_key, clean_value. rewrite !forallb_both.
  intros [[[[Hk1 Hk2]%andb_prop Hk3]%andb_prop Hk4]%andb_prop Hk5]%andb_prop
         [[Hv1 Hv2]%andb_prop Hv3]%andb_prop.
  apply bool_decide_eq_true in Hk3, Hv3.
  unfold extractEnv, indexOf, entry_line. cbn [fst snd app].
  rewrite indexOf_from_app by done. rewrite Z.add_0_l.
  by rewrite slice_prefix, slice_suffix, Hk3, Hv3.
Qed.

Lemma first_or_empty_clean v :
  clean_value v = true -> first_or_empty (match_runs v) = v.
Proof.
  unfold clean_value. rewrite !forallb_both.
  intros [[Hv1 Hv2]%andb_prop Hv3]%andb_prop.
  rewrite match_runs_quote_free by done. by destruct v.
Qed.

Lemma line_kept k v :
  clean_key k = true ->
  negb (startsWith HASH (entry_line (k, v)))
  && negb (bool_decide (trim (entry_line (k, v)) = [])) = true.
Proof.
  unfold clean_key, entry_line. cbn [fst snd].
  intros [[_ Hk]%andb_prop _]%andb_prop. apply andb_true_intro. split.
  - destruct k; [done|]. exact Hk.
  - apply negb_true_iff, bool_decide_eq_false.
    apply (trim_nonempty EQ); [|done].
    apply elem_of_app. right. left.
Qed.

Lemma line_no_break k v :
  clean_key k = true -> clean_value v = true ->
  forallb (fun x => negb (Ascii.eqb x NL)) (entry_line (k, v)) = true.
Proof.
  unfold clean_key, clean_value, entry_line. cbn [fst snd]. rewrite !forallb_both.
  intros [[[[Hk1 Hk2]%andb_prop _]%andb_prop _]%andb_prop _]%andb_prop
         [[Hv1 Hv2]%andb_prop _]%andb_prop.
  rewrite !forallb_app. simpl. by rewrite Hk2, Hv2.
Qed.

Lemma saveConfig_lines c :
  saveConfig c = concat (map (fun l => l ++ [NL]) (map entry_line c)).
Proof.
  unfold saveConfig, buildEnv, entry_line. rewrite !map_map. f_equal.
  apply map_ext. intros [k v]. cbn [fst snd answer_text]. by rewrite <- !app_assoc.
Qed.

Lemma parse_fold c acc :
  forallb (fun kv : str * str => clean_key (fst kv) && clean_value (snd kv)) c = true ->
  fold_left
    (fun (cfgObj : Config) (line : str) =>
       let '(envName, envValue) := extractEnv line in
       prop_set envName (first_or_empty envValue) cfgObj)
    (map entry_line c) acc
  = fold_left (fun o (kv : str * str) => obj_set (fst kv) (snd kv) o) c acc.
Proof.
  revert acc. induction c as [|[k v] c IH]; intros acc Hc; [done|].
  cbn [forallb fst snd] in Hc.
  apply andb_prop in Hc as [[Hk Hv]%andb_prop Hc].
  cbn [map fold_left]. rewrite extractEnv_clean by done.
  rewrite first_or_empty_clean by done.
  rewrite prop_set_ordinary; [by apply IH|].
  unfold clean_key in Hk. by apply andb_prop in Hk as [_ Hk].
Qed.

Lemma filter_kept c :
  forallb (fun kv : str * str => clean_key (fst kv) && clean_value (snd kv)) c = true ->
  List.filter
    (fun line => negb (startsWith HASH line) && negb (bool_decide (trim line = [])))
    (map entry_line c ++ [[]])
  = map entry_line c.
Proof.
  intros Hc. rewrite List.filter_app. simpl. rewrite app_nil_r.
  induction c as [|[k v] c IH]; [done|].
  cbn [forallb fst snd] in Hc.
  apply andb_prop in Hc as [[Hk Hv]%andb_prop Hc].
  cbn [map List.filter]. rewrite line_kept by done. by rewrite IH.
Qed.

Lemma parseConfig_fold content :
  parseConfig content = fold_left load_step (config_lines content) [].
Proof. reflexivity. Qed.

Lemma parse_save_clean c : clean_config c = true -> parseConfig (saveConfig c) = c.
Proof.
  unfold clean_config. intros [Hnd Hc]%andb_prop.
  apply bool_decide_eq_true in Hnd.
  unfold parseConfig. rewrite saveConfig_lines, split_lines.
  - rewrite filter_kept, parse_fold by done. by apply fold_obj_set_fresh.
  - apply Forall_forall. intros l Hin. apply list_elem_of_In, in_map_iff in Hin.
    destruct Hin as ([k v] & <- & Hin).
    rewrite forallb_forall in Hc. specialize (Hc _ Hin). cbn [fst snd] in Hc.
    apply andb_prop in Hc as [Hk Hv]. by apply line_no_break.
Qed.

(** C3, as amended: for every configuration with unique keys, whose keys
    are ordinary names (neither an array index nor [__proto__]) that hold
    no equals sign, no line break, no surrounding white space and no
    leading hash sign, and whose values hold no quote character, no line
    break and no surrounding white space, loading the file that the save
    wrote returns that configuration: same keys, same values, same
    order. *)
Theorem load_save_roundtrip (c : Config) (path : str) (w : World) :
  clean_config c = true ->
  loadConfig (Some path) (files (writeFileSync path (saveConfig c) w)) = Returned c.
Proof.
  intros Hc. unfold loadConfig, writeFileSync. cbn [files default].
  rewrite lookup_insert_eq. by rewrite parse_save_clean.
Qed.

Lemma load_save_roundtrip_witness :
  let c := [(js "SIPGATE_TOKEN_ID", js "token-1234"); (js "EMPTY", js "");
            (js "GOOGLE_PROJECT_REGION", js "europe-west3")] in
  let w := {| files := ∅; rng := fun _ => 0%Q; events := [] |} in
  clean_config c = true /\
  loadConfig (Some (js "./config.cfg")) (files (writeFileSync (js "./config.cfg") (saveConfig c) w))
  = Returned c.
Proof.
  split; [vm_compute; reflexivity|].
  apply load_save_roundtrip. vm_compute. reflexivity.
Defined.

(** C3 as stated fails: a value that holds a quote character is cut at the
    quote when the file is loaded; besides, names that are array indices
    come back first and in ascending order, and the name [__proto__] does
    not come back at all. *)
Lemma load_save_roundtrip_counterexample :
  let c := [(js "GREETING", js "it's")] in
  let indexed := [(js "b", js "1"); (js "2", js "x"); (js "1", js "y")] in
  let proto := [(PROTO, js "x"); (js "A", js "1")] in
  parseConfig (saveConfig c) = [(js "GREETING", js "it")]
  /\ parseConfig (saveConfig c) <> c
  /\ parseConfig (saveConfig indexed) = [(js "1", js "y"); (js "2", js "x"); (js "b", js "1")]
  /\ parseConfig (saveConfig proto) = [(js "A", js "1")].
Proof.
  split; [reflexivity|]. split; [discriminate|]. split; vm_compute; reflexivity.
Qed.

Lemma obj_get_fold_none k (ls : list str) acc :
  k <> PROTO ->
  obj_get k (fold_left load_step ls acc) = None <->
  obj_get k acc = None /\ Forall (fun line => fst (extractEnv line) <> k) ls.
Proof.
  intros Hk. revert acc. induction ls as [|line ls IH]; intros acc; cbn [fold_left].
  - split; [intros H; split; [done|constructor]|by intros [H _]].
  - rewrite IH. unfold load_step. destruct (extractEnv line) as [n e] eqn:E.
    cbn [fst]. split.
    + intros [Hg Hf]. destruct (decide (n = k)) as [->|Hne].
      * by rewrite obj_get_prop_set_eq in Hg.
      * rewrite obj_get_prop_set_ne in Hg by done. split; [done|].
        constructor; [by rewrite E|done].
    + intros [Hg Hf]. inversion Hf as [|? ? Hn Hf']; subst.
      rewrite E in Hn. cbn [fst] in Hn.
      split; [by rewrite obj_get_prop_set_ne|done].
Qed.

Lemma obj_get_fold_some k v (ls : list str) acc :
  k <> PROTO ->
  obj_get k (fold_left load_step ls acc) = Some v ->
  obj_get k acc = Some v \/
  exists line, line ∈ ls /\ fst (extractEnv line) = k
               /\ v = first_or_empty (snd (extractEnv line)).
Proof.
  intros Hk. revert acc.
  induction ls as [|line ls IH]; intros acc; cbn [fold_left]; [by left|].
  intros [Hg|(l & Hin & Hn & Hv)]%IH.
  - unfold load_step in Hg. destruct (extractEnv line) as [n e] eqn:E.
    destruct (decide (n = k)) as [->|Hne].
    + rewrite obj_get_prop_set_eq in Hg by done. injection Hg as <-.
      right. exists line. rewrite E. repeat split; [left|done..].
    + rewrite obj_get_prop_set_ne in Hg by done. by left.
  - right. exists l. repeat split; [by right|done..].
Qed.

(** A line that names [__proto__] leaves the configuration as it was. *)
Lemma load_step_proto (cfgObj : Config) (line : str) :
  fst (extractEnv line) = PROTO -> load_step cfgObj line = cfgObj.
Proof.
  unfold load_step. destruct (extractEnv line) as [n e]. cbn [fst].
  intros ->. apply prop_set_proto.
Qed.

(** C5 fails on the variable [__proto__]: the file that configures it as
    the empty string is loaded exactly like the file that does not mention
    it, with no entry of that name, where every other variable configured
    as empty gets the empty string as its value; and whatever such a line
    says, it stores nothing. *)
Theorem loadConfig_proto_not_stored (cfgObj : Config) (value : str) :
  config_lines (js "__proto__=") = [js "__proto__="]
  /\ extractEnv (js "__proto__=") = (PROTO, None)
  /\ obj_get PROTO (parseConfig (js "__proto__=")) = None
  /\ parseConfig (js "__proto__=") = parseConfig []
  /\ obj_get (js "A") (parseConfig (js "A=")) = Some []
  /\ obj_get (js "A") (parseConfig []) = None
  /\ load_step cfgObj (js "__proto__=" ++ value) = cfgObj.
Proof.
  split; [reflexivity|]. split; [reflexivity|]. split; [reflexivity|].
  split; [reflexivity|]. split; [reflexivity|]. split; [reflexivity|].
  apply load_step_proto. unfold extractEnv, indexOf.
  change (js "__proto__=" ++ value) with (PROTO ++ EQ :: value).
  rewrite indexOf_from_app by reflexivity. rewrite Z.add_0_l, slice_prefix. reflexivity.
Qed.

(** X23: for every variable name other than [__proto__], the loaded
    configuration has no entry of that name exactly when no interpreted
    line of the file names it, so that such a variable configured as the
    empty string is never represented as an absent one; and the value of a
    present entry is the string a line naming it supplies, the empty string
    when that line has no value. *)
Theorem loadConfig_absent_iff_unconfigured (content k : str) :
  k <> PROTO ->
  (obj_get k (parseConfig content) = None <->
   Forall (fun line => fst (extractEnv line) <> k) (config_lines content))
  /\ (In k (map (fun line => fst (extractEnv line)) (config_lines content)) ->
      exists v : str, obj_get k (parseConfig content) = Some v)
  /\ (forall v : str, obj_get k (parseConfig content) = Some v ->
       exists line, line ∈ config_lines content /\ fst (extractEnv line) = k
                    /\ v = first_or_empty (snd (extractEnv line))).
Proof.
  intros Hk. rewrite parseConfig_fold. split; [|split].
  - rewrite obj_get_fold_none by done. split; [by intros [_ H]|by intros H].
  - intros Hin. apply in_map_iff in Hin as (line & Hn & Hin).
    destruct (obj_get k (fold_left load_step (config_lines content) [])) as [v|] eqn:E;
      [by exists v|].
    apply obj_get_fold_none in E as [_ Hf]; [|done].
    rewrite Forall_forall in Hf. apply list_elem_of_In in Hin. by specialize (Hf line Hin).
  - intros v [Hg|H]%obj_get_fold_some; [done|exact H|done].
Qed.

Lemma loadConfig_absent_iff_unconfigured_witness :
  js "REGION" <> PROTO
  /\ obj_get (js "REGION") (parseConfig (js "A=1" ++ [NL] ++ js "REGION=")) = Some []
  /\ obj_get (js "REGION") (parseConfig (js "A=1")) = None.
Proof.
  assert (js "REGION" <> PROTO) as Hk by discriminate.
  split; [exact Hk|]. split.
  - destruct (proj1 (proj2 (loadConfig_absent_iff_unconfigured
                              (js "A=1" ++ [NL] ++ js "REGION=") (js "REGION") Hk)))
      as [v Hv]; [vm_compute; tauto|].
    rewrite Hv. f_equal.
    assert (obj_get (js "REGION") (parseConfig (js "A=1" ++ [NL] ++ js "REGION=")) = Some [])
      as Hc by reflexivity.
    rewrite Hc in Hv. by injection Hv.
  - apply (proj1 (loadConfig_absent_iff_unconfigured (js "A=1") (js "REGION") Hk)).
    repeat constructor. discriminate.
Defined.

End ConfigStore.


(** ** The TemplateParser *)

Section TemplateParser.

Implicit Types (s line comment k v : str).

Lemma has_char_false c s :
  has_char c s = false -> forallb (fun x => negb (Ascii.eqb x c)) s = true.
Proof.
  unfold has_char. induction s as [|x s IH]; simpl; [done|].
  intros [Hx Hs]%orb_false_elim. rewrite Hx. simpl. auto.
Qed.

Lemma take_while_all p s : forallb p (take_while p s) = true.
Proof.
  induction s as [|c s IH]; simpl; [done|].
  destruct (p c) eqn:E; simpl; [by rewrite E|done].
Qed.

Lemma drop_while_stops p s :
  match drop_while p s with [] => True | c :: _ => p c = false end.
Proof.
  induction s as [|c s IH]; simpl; [done|]. by destruct (p c) eqn:E.
Qed.

Lemma scan_runs_open s cur :
  cur <> [] ->
  scan_runs s cur = (rev cur ++ take_while nq s) :: scan_runs (drop_while nq s) [].
Proof.
  revert cur. induction s as [|c s IH]; intros cur Hcur.
  - destruct cur; [done|]. simpl. by rewrite app_nil_r.
  - cbn [scan_runs take_while drop_while]. destruct (is_quote c) eqn:E; simpl.
    + destruct cur; [done|]. rewrite E. by rewrite app_nil_r.
    + rewrite IH by done. simpl. by rewrite <- app_assoc.
Qed.

Lemma scan_runs_skip s : scan_runs s [] = scan_runs (drop_while is_quote s) [].
Proof.
  induction s as [|c s IH]; [done|].
  cbn [scan_runs drop_while]. destruct (is_quote c) eqn:E; [done|].
  cbn [scan_runs]. by rewrite E.
Qed.

(** The matches start with the run after the leading quote characters. *)
Lemma scan_runs_first s :
  scan_runs s [] =
  match take_while nq (drop_while is_quote s) with
  | [] => []
  | r => r :: scan_runs (drop_while nq (drop_while is_quote s)) []
  end.
Proof.
  rewrite scan_runs_skip.
  pose proof (drop_while_stops is_quote s) as Hstop.
  destruct (drop_while is_quote s) as [|c t]; [done|].
  cbn [scan_runs take_while drop_while]. rewrite Hstop. simpl.
  by rewrite scan_runs_open.
Qed.

Lemma first_run_spec s :
  match take_while nq (drop_while is_quote s) with
  | [] => forallb is_quote s = true
  | r => first_quote_free_run s r
  end.
Proof.
  pose proof (take_drop_while is_quote s) as H1.
  pose proof (take_drop_while nq (drop_while is_quote s)) as H2.
  pose proof (drop_while_stops is_quote s) as Hstop.
  pose proof (drop_while_stops nq (drop_while is_quote s)) as Hstop2.
  pose proof (take_while_all nq (drop_while is_quote s)) as Hall.
  destruct (take_while nq (drop_while is_quote s)) as [|c r] eqn:E.
  - destruct (drop_while is_quote s) as [|c t] eqn:E2.
    + rewrite app_nil_r in H1. rewrite <- H1. apply take_while_all.
    + simpl in E. rewrite Hstop in E. done.
  - exists (take_while is_quote s), (drop_while nq (drop_while is_quote s)).
    repeat split.
    + by rewrite H2.
    + apply take_while_all.
    + done.
    + done.
    + destruct (drop_while nq (drop_while is_quote s)); [done|].
      by apply negb_false_iff.
Qed.

Lemma composeQuestion_default line comment :
  q_default (composeQuestion line comment)
  = AArr <$> match_runs
      (trim (slice line (indexOf EQ line + 1)%Z (Z.of_nat (length line)))).
Proof.
  unfold composeQuestion. cbn [q_default]. unfold match_runs.
  destruct (scan_runs _ []); done.
Qed.

Lemma scan_runs_all_bounded (n : nat) :
  forall s, length s <= n -> quote_free_runs s (scan_runs s []).
Proof.
  induction n as [|n IH]; intros s Hlen.
  - destruct s; [|cbn in Hlen; lia]. apply runs_none. reflexivity.
  - rewrite scan_runs_first.
    pose proof (first_run_spec s) as Hspec.
    pose proof (take_drop_while is_quote s) as H1.
    pose proof (take_drop_while nq (drop_while is_quote s)) as H2.
    pose proof (drop_while_stops nq (drop_while is_quote s)) as Hstop.
    pose proof (take_while_all nq (drop_while is_quote s)) as Hall.
    pose proof (take_while_all is_quote s) as Hpre.
    remember (take_while is_quote s) as pre eqn:Epre.
    remember (drop_while nq (drop_while is_quote s)) as post eqn:Epost.
    destruct (take_while nq (drop_while is_quote s)) as [|c r] eqn:E.
    + by apply runs_none.
    + assert (s = pre ++ (c :: r) ++ post) as Hs by (by rewrite H2, H1).
      assert (length post <= n) as Hpost.
      { rewrite Hs in Hlen. rewrite !length_app in Hlen. cbn [length] in Hlen. lia. }
      rewrite Hs at 1. apply runs_cons; [done|done|done| |by apply IH].
      destruct post as [|c' post']; [done|]. by apply negb_false_iff.
Qed.

(** The matcher returns the maximal quote-free runs, all of them. *)
Lemma scan_runs_all s : quote_free_runs s (scan_runs s []).
Proof. by apply (scan_runs_all_bounded (length s)). Qed.

(** A text has one sequence of maximal quote-free runs. *)
Lemma span_unique (p : ascii -> bool) (l1 l2 m1 m2 : str) :
  l1 ++ m1 = l2 ++ m2 ->
  forallb p l1 = true -> forallb p l2 = true ->
  match m1 with [] => True | c :: _ => p c = false end ->
  match m2 with [] => True | c :: _ => p c = false end ->
  l1 = l2 /\ m1 = m2.
Proof.
  revert l2. induction l1 as [|x l1 IH]; intros l2 Heq H1 H2 Hm1 Hm2.
  - destruct l2 as [|y l2]; [done|]. cbn in Heq. subst m1.
    cbn in H2. apply andb_prop in H2 as [Hy _]. congruence.
  - destruct l2 as [|y l2].
    + cbn in Heq. subst m2. cbn in H1. apply andb_prop in H1 as [Hx _]. congruence.
    + cbn in Heq. injection Heq as -> Heq.
      cbn in H1, H2. apply andb_prop in H1 as [_ H1]. apply andb_prop in H2 as [_ H2].
      destruct (IH l2 Heq H1 H2 Hm1 Hm2) as [-> ->]. done.
Qed.

Lemma quote_free_runs_unique s (runs1 runs2 : list str) :
  quote_free_runs s runs1 -> quote_free_runs s runs2 -> runs1 = runs2.
Proof.
  intros H1. revert runs2. induction H1 as [s Hall|pre r post rs Hpre Hr Hnq Hpost Hrest IH];
    intros runs2 H2.
  - inversion H2 as [|pre' r' post' rs' Hpre' Hr' Hnq' Hpost' Hrest' Hs]; [done|]. subst.
    rewrite !forallb_app in Hall. apply andb_prop in Hall as [_ [Hr'' _]%andb_prop].
    destruct r' as [|c r']; [done|]. cbn in Hnq', Hr''.
    apply andb_prop in Hnq' as [Hc _]. apply andb_prop in Hr'' as [Hc' _].
    rewrite Hc' in Hc. done.
  - inversion H2 as [s' Hall Hs|pre' r' post' rs' Hpre' Hr' Hnq' Hpost' Hrest' Hs].
    + subst. rewrite !forallb_app in Hall. apply andb_prop in Hall as [_ [Hr'' _]%andb_prop].
      destruct r as [|c r]; [done|]. cbn in Hnq, Hr''.
      apply andb_prop in Hnq as [Hc _]. apply andb_prop in Hr'' as [Hc' _].
      rewrite Hc' in Hc. done.
    + subst. destruct (span_unique is_quote pre' pre (r' ++ post') (r ++ post)) as [-> Hmid];
        try done.
      * destruct r' as [|c r']; [done|]. cbn in Hnq' |- *.
        apply andb_prop in Hnq' as [Hc _]. by apply negb_true_iff.
      * destruct r as [|c r]; [done|]. cbn in Hnq |- *.
        apply andb_prop in Hnq as [Hc _]. by apply negb_true_iff.
      * destruct (span_unique nq r' r post' post) as [-> ->]; try done.
        -- destruct post' as [|c p']; [done|]. by apply negb_false_iff.
        -- destruct post as [|c p']; [done|]. by apply negb_false_iff.
        -- f_equal. by apply IH.
Qed.

(** C4, as amended: for every assignment line, with [v] the text after the
    first equals sign, the default of the question is the array of all the
    maximal runs without a quote character of the trimmed [v], in order
    (its first element is the first such run), and it is absent, never the
    empty string, when there is no such run.  The three lines of the
    specification give the arrays of the one run [hello world], of the one
    run [bareword], and no default. *)
Theorem composeQuestion_default_runs (k v comment : str) :
  has_char EQ k = false ->
  let q := composeQuestion (k ++ EQ :: v) comment in
  q_name q = trim k
  /\ (exists runs,
         quote_free_runs (trim v) runs
         /\ (forall runs', quote_free_runs (trim v) runs' -> runs' = runs)
         /\ q_default q = match runs with [] => None | _ => Some (AArr runs) end
         /\ match runs with
            | r :: _ => first_quote_free_run (trim v) r
            | [] => forallb is_quote (trim v) = true
            end)
  /\ q_default q <> Some (AStr [])
  /\ q_default (composeQuestion (js "KEY=" ++ [DQ] ++ js "hello world" ++ [DQ]) comment)
     = Some (AArr [js "hello world"])
  /\ q_default (composeQuestion (js "KEY=bareword") comment) = Some (AArr [js "bareword"])
  /\ q_default (composeQuestion (js "KEY=") comment) = None.
Proof.
  intros Hk%has_char_false q.
  assert (q_default q = AArr <$> match_runs (trim v)) as Hd.
  { unfold q. rewrite composeQuestion_default. unfold indexOf.
    rewrite indexOf_from_app by done. rewrite Z.add_0_l.
    by rewrite slice_suffix. }
  split; [|split; [|split; [|by repeat split]]].
  - unfold q, composeQuestion, indexOf. cbn [q_name].
    rewrite indexOf_from_app by done. rewrite Z.add_0_l. by rewrite slice_prefix.
  - exists (scan_runs (trim v) []).
    pose proof (scan_runs_all (trim v)) as Hall.
    split; [exact Hall|]. split.
    { intros runs' Hruns'. by apply (quote_free_runs_unique (trim v)). }
    split.
    { rewrite Hd. unfold match_runs. by destruct (scan_runs (trim v) []). }
    pose proof (first_run_spec (trim v)) as Hspec.
    rewrite scan_runs_first.
    by destruct (take_while nq (drop_while is_quote (trim v))).
  - rewrite Hd. unfold match_runs. by destruct (scan_runs (trim v) []).
Qed.

Lemma composeQuestion_default_runs_witness :
  has_char EQ (js "SIPGATE_TOKEN ") = false /\
  let q := composeQuestion (js "SIPGATE_TOKEN = 'abc' # 'x'") (js "") in
  q_name q = js "SIPGATE_TOKEN"
  /\ q_default q = Some (AArr [js "abc"; js " # "; js "x"]).
Proof.
  split; [reflexivity|].
  pose proof (composeQuestion_default_runs (js "SIPGATE_TOKEN ") (js " 'abc' # 'x'") (js "")
                eq_refl) as H.
  cbv zeta in H. destruct H as (Hn & _). split; [exact Hn|reflexivity].
Defined.

(** C4 as stated fails: the default is not the first run but the array of
    all the runs, three of them for a quoted value followed by a quoted
    remark, and a one-element array, not a string, for the lines of the
    specification. *)
Lemma composeQuestion_default_counterexample :
  let q := composeQuestion (js "SIPGATE_TOKEN = 'abc' # 'x'") (js "") in
  first_quote_free_run (trim (js " 'abc' # 'x'")) (js "abc")
  /\ q_default q = Some (AArr [js "abc"; js " # "; js "x"])
  /\ q_default q <> Some (AStr (js "abc"))
  /\ q_default q <> Some (AArr [js "abc"])
  /\ q_default (composeQuestion (js "KEY=bareword") (js "")) <> Some (AStr (js "bareword")).
Proof.
  split.
  - exists [chr 39], (js "' # 'x'"). by repeat split.
  - split; [reflexivity|]. by repeat split.
Qed.

Lemma slice_drop_last s : slice s 0 (-1) = removelast s.
Proof.
  unfold slice, clamp_index. change (0 <? 0)%Z with false.
  change (-1 <? 0)%Z with true. cbv iota.
  rewrite Z.min_l by lia. change (Z.to_nat 0) with 0. rewrite drop_0, Z.sub_0_r.
  destruct s as [|c s] using rev_ind; [done|].
  rewrite removelast_last, length_app. simpl length.
  replace (Z.to_nat (Z.max (Z.of_nat (length s + 1) + -1) 0)) with (length s) by lia.
  by rewrite take_app_length.
Qed.

(** Questions already emitted are never touched again. *)
Lemma extract_fold_app (ls : list str) comment (qs : list Question) :
  fold_left extract_step ls (comment, qs)
  = (fst (fold_left extract_step ls (comment, [])),
     qs ++ snd (fold_left extract_step ls (comment, []))).
Proof.
  revert comment qs. induction ls as [|l ls IH]; intros comment qs; cbn [fold_left].
  - cbn. by rewrite app_nil_r.
  - unfold extract_step at 2 4 6. destruct (startsWith HASH l).
    + apply IH.
    + rewrite IH. rewrite (IH [] ([] ++ [composeQuestion l comment])).
      cbn [fst snd]. by rewrite <- !app_assoc.
Qed.

Lemma extractQuestions_split (pre post : list str) line :
  startsWith HASH line = false ->
  extractQuestions (pre ++ line :: post)
  = extractQuestions pre
      ++ composeQuestion line (fst (fold_left extract_step pre ([], [])))
      :: extractQuestions post.
Proof.
  intros Hh. unfold extractQuestions. rewrite fold_left_app. cbn [fold_left].
  destruct (fold_left extract_step pre ([], [])) as [comment qs]. cbn [fst snd].
  unfold extract_step at 2. rewrite Hh.
  rewrite extract_fold_app. cbn [snd]. by rewrite <- app_assoc.
Qed.

(** The number of questions is the number of lines that are not comments:
    nothing is rejected. *)
Lemma extractQuestions_length (envArray : list str) :
  length (extractQuestions envArray)
  = length (List.filter (fun line => negb (startsWith HASH line)) envArray).
Proof.
  induction envArray as [|l ls IH] using rev_ind; [done|].
  rewrite List.filter_app, length_app. cbn [List.filter].
  destruct (startsWith HASH l) eqn:E; cbn [negb length].
  - unfold extractQuestions in *. rewrite fold_left_app. cbn [fold_left].
    destruct (fold_left extract_step ls ([], [])) as [comment qs].
    unfold extract_step. rewrite E. cbn [snd] in *. lia.
  - rewrite extractQuestions_split by done. rewrite length_app. cbn. lia.
Qed.

(** C6, as amended: a template line that holds no equals sign and does not
    start with a hash sign does not make the parse fail, the parser having
    no error path: it emits exactly one question for that line, an input
    question whose message is its name followed by an equals sign, in the
    place of the line among the questions of the other lines, and no line
    of the template is left without its question. *)
Theorem extractQuestions_line_without_equals (pre post : list str) (line : str) :
  has_char EQ line = false ->
  startsWith HASH line = false ->
  exists q : Question,
    extractQuestions (pre ++ line :: post)
    = extractQuestions pre ++ q :: extractQuestions post
    /\ q_type q = js "input"
    /\ q_message q = q_name q ++ js " ="
    /\ length (extractQuestions (pre ++ line :: post))
       = length (List.filter (fun l => negb (startsWith HASH l)) (pre ++ line :: post)).
Proof.
  intros _ Hh.
  exists (composeQuestion line (fst (fold_left extract_step pre ([], [])))).
  split; [by apply extractQuestions_split|].
  split; [reflexivity|]. split; [reflexivity|]. apply extractQuestions_length.
Qed.

Lemma extractQuestions_line_without_equals_witness :
  has_char EQ (js "SIPGATE_TOKEN") = false /\
  startsWith HASH (js "SIPGATE_TOKEN") = false /\
  exists q : Question,
    extractQuestions ([js "# token"; js "A=1"] ++ js "SIPGATE_TOKEN" :: [js "B=2"])
    = extractQuestions [js "# token"; js "A=1"] ++ q :: extractQuestions [js "B=2"]
    /\ q_type q = js "input".
Proof.
  split; [reflexivity|]. split; [reflexivity|].
  destruct (extractQuestions_line_without_equals [js "# token"; js "A=1"] [js "B=2"]
              (js "SIPGATE_TOKEN") eq_refl eq_refl) as (q & Hq & Ht & _).
  exists q. split; [exact Hq|exact Ht].
Defined.

(** C6 as stated fails: for the line [FOO] no error is raised, a question
    is emitted (named [FO], with the run [FOO] as its default). *)
Lemma extractQuestions_malformed_counterexample :
  has_char EQ (js "FOO") = false /\ startsWith HASH (js "FOO") = false /\
  map (fun q => (q_name q, q_default q)) (extractQuestions [js "FOO"])
  = [(js "FO", Some (AArr [js "FOO"]))].
Proof. repeat split. Qed.

End TemplateParser.

(** ** The ColumnAligner *)

Section ColumnAligner.

Implicit Types (strings : list str) (len maxLen k : nat).

Lemma calculateTabs_map strings :
  calculateTabs strings
  = map (fun s : str => (max_list (map (fun s : str => length s) strings) - length s) / 8 + 1)
      strings.
Proof. unfold calculateTabs. by rewrite !map_map. Qed.

Lemma calculateTabs_length strings : length (calculateTabs strings) = length strings.
Proof. rewrite calculateTabs_map. apply length_map. Qed.

Lemma calculateTabs_lookup strings i (s : str) :
  strings !! i = Some s ->
  calculateTabs strings !! i
  = Some ((max_list (map (fun s : str => length s) strings) - length s) / 8 + 1).
Proof.
  intros Hs. rewrite calculateTabs_map.
  change (map ?f strings) with (f <$> strings).
  by rewrite list_lookup_fmap, Hs.
Qed.

Lemma length_le_max strings i (s : str) :
  strings !! i = Some s -> length s <= max_list (map (fun s : str => length s) strings).
Proof.
  intros Hs. apply max_list_elem_of_le.
  change (map ?f strings) with (f <$> strings).
  apply list_elem_of_fmap. exists s. split; [done|].
  apply list_elem_of_lookup. by exists i.
Qed.

(** After at least one tab the cursor sits on a tab stop. *)
Lemma padded_col_succ len k : padded_col len (S k) = (len / 8 + S k) * 8.
Proof.
  unfold padded_col. induction k as [|k IH].
  - reflexivity.
  - rewrite Nat.iter_succ, IH. unfold tab_advance, tabStopWidth.
    rewrite Nat.div_mul by done. lia.
Qed.

Lemma div8_superadditive a d : a / 8 + d / 8 <= (a + d) / 8.
Proof.
  pose proof (Nat.div_mod_eq a 8). pose proof (Nat.div_mod_eq d 8).
  pose proof (Nat.div_mod_eq (a + d) 8).
  pose proof (Nat.mod_upper_bound a 8). pose proof (Nat.mod_upper_bound d 8).
  pose proof (Nat.mod_upper_bound (a + d) 8). lia.
Qed.

Lemma div8_additive a d : a mod 8 <= (a + d) mod 8 -> a / 8 + d / 8 = (a + d) / 8.
Proof.
  pose proof (Nat.div_mod_eq a 8). pose proof (Nat.div_mod_eq d 8).
  pose proof (Nat.div_mod_eq (a + d) 8).
  pose proof (Nat.mod_upper_bound a 8). pose proof (Nat.mod_upper_bound d 8).
  pose proof (Nat.mod_upper_bound (a + d) 8). lia.
Qed.

(** C2, as amended: for every non-empty sequence of names the tab count of
    a name of length [len] is [(maxLen - len) / 8 + 1]; padded with that
    many tabs the name reaches a tab stop that is never beyond the one the
    longest name reaches with its own single tab, no smaller number of tabs
    reaches that tab stop, and the name reaches exactly that tab stop
    whenever [len mod 8 <= maxLen mod 8]. *)
Theorem calculateTabs_alignment (strings : list str) (i : nat) (s : str) :
  strings !! i = Some s ->
  let maxLen := max_list (map (fun s : str => length s) strings) in
  let len := length s in
  let tabs := (maxLen - len) / 8 + 1 in
  calculateTabs strings !! i = Some tabs
  /\ padded_col len tabs <= padded_col maxLen 1
  /\ (forall j, j < tabs -> padded_col len j < padded_col maxLen 1)
  /\ (len mod 8 <= maxLen mod 8 -> padded_col len tabs = padded_col maxLen 1).
Proof.
  intros Hs maxLen len tabs.
  pose proof (length_le_max strings i s Hs) as Hle. fold maxLen len in Hle.
  pose proof (div8_superadditive len (maxLen - len)) as Hsup.
  replace (len + (maxLen - len)) with maxLen in Hsup by lia.
  split; [by apply calculateTabs_lookup|].
  unfold tabs. rewrite Nat.add_1_r, !padded_col_succ.
  split; [lia|]. split.
  - intros [|j] Hj.
    + change (padded_col len 0) with len.
      pose proof (Nat.div_mod_eq maxLen 8). pose proof (Nat.mod_upper_bound maxLen 8). lia.
    + rewrite padded_col_succ. lia.
  - intros Hmod. pose proof (div8_additive len (maxLen - len)) as Hadd.
    replace (len + (maxLen - len)) with maxLen in Hadd by lia.
    specialize (Hadd Hmod). lia.
Qed.

Lemma calculateTabs_alignment_witness :
  let strings := [js "abc"; js "abcdefghijk"; js "abcdefghijklmnopqrst"] in
  strings !! 0 = Some (js "abc")
  /\ calculateTabs strings !! 0 = Some 3
  /\ padded_col 3 3 = padded_col 20 1.
Proof.
  split; [reflexivity|].
  pose proof (calculateTabs_alignment
                [js "abc"; js "abcdefghijk"; js "abcdefghijklmnopqrst"] 0 (js "abc") eq_refl)
    as H.
  cbv zeta in H. destruct H as (H1 & _ & _ & H4).
  split; [exact H1|]. apply H4. vm_compute. lia.
Defined.

(** C2 as stated fails: of the names of 7 and of 8 characters each gets one
    tab, which takes the shorter one to column 8 and the longer one to
    column 16. *)
Lemma calculateTabs_alignment_counterexample :
  let strings := [js "abcdefg"; js "abcdefgh"] in
  calculateTabs strings = [1; 1]
  /\ padded_col (length (js "abcdefg")) 1 = 8
  /\ padded_col (length (js "abcdefgh")) 1 = 16
  /\ ~ (padded_col (length (js "abcdefg")) 1 >= padded_col (length (js "abcdefgh")) 1).
Proof. repeat split. vm_compute. lia. Qed.

(** The example of the specification: lengths 3, 11 and 20. *)
Example calculateTabs_spec_example :
  calculateTabs [js "abc"; js "abcdefghijk"; js "abcdefghijklmnopqrst"] = [3; 2; 1].
Proof. reflexivity. Qed.

End ColumnAligner.

(** ** The FuzzyCatalogSelector *)

Section FuzzyCatalog.

Implicit Types (s q : str) (input : option str) (project : ProjectData).

Lemma prefixb_spec q s : prefixb q s = true <-> exists post, s = q ++ post.
Proof.
  revert s. induction q as [|a q IH]; intros s; simpl.
  - split; [by exists s|done].
  - destruct s as [|b s].
    + split; [done|by intros [post H]].
    + rewrite andb_true_iff, Ascii.eqb_eq, IH. split.
      * intros [-> [post ->]]. by exists post.
      * intros [post H]. injection H as -> ->. split; [done|by exists post].
Qed.

Lemma includes_spec s q : includes s q = true <-> exists pre post, s = pre ++ q ++ post.
Proof.
  induction s as [|c s IH].
  - cbn [includes]. rewrite orb_false_r, prefixb_spec. split.
    + intros [post H]. by exists [], post.
    + intros (pre & post & H). destruct pre; [by exists post|done].
  - cbn [includes]. rewrite orb_true_iff, prefixb_spec, IH. split.
    + intros [[post H]|(pre & post & H)].
      * by exists [], post.
      * exists (c :: pre), post. by rewrite H.
    + intros ([|c' pre] & post & H).
      * left. by exists post.
      * right. injection H as -> H. by exists pre, post.
Qed.

Lemma query_of_lower input : query_of input = toLowerCase (default [] input).
Proof. by destruct input. Qed.

Lemma catalog_match_spec input project :
  catalog_match input project = true <->
  ci_contains (repository project) (default [] input)
  \/ ci_contains (description project) (default [] input).
Proof.
  unfold catalog_match, ci_contains.
  by rewrite orb_true_iff, !includes_spec, query_of_lower.
Qed.

Lemma filter_sublist {A : Type} (f : A -> bool) (l : list A) : sublist (List.filter f l) l.
Proof.
  induction l as [|x l IH]; simpl; [constructor|].
  destruct (f x); by constructor.
Qed.

(** C9: for every query the source of the autocomplete prompt shows, in
    catalog order, exactly the entries whose repository or description
    contains the query as a substring when case is ignored; and for the
    query [sms] the catalog of [sipgateio-sendsms-node] and
    [sipgateio-incomingcall-node] yields the first entry only (the
    description of the second one not mentioning sms). *)
Theorem catalog_source_fuzzy_filter (githubProjects : list ProjectData) (input : option str)
    (d1 d2 : str) (t1 t2 : option nat) :
  includes (toLowerCase d2) (js "sms") = false ->
  (exists kept : list ProjectData,
      catalog_source githubProjects input = map render_project kept
      /\ sublist kept githubProjects
      /\ forall project,
          project ∈ kept <->
          project ∈ githubProjects
          /\ (ci_contains (repository project) (default [] input)
              \/ ci_contains (description project) (default [] input)))
  /\ let first := {| repository := js "sipgateio-sendsms-node";
                     description := d1; tabOffset := t1 |} in
     let second := {| repository := js "sipgateio-incomingcall-node";
                      description := d2; tabOffset := t2 |} in
     catalog_source [first; second] (Some (js "sms")) = [render_project first].
Proof.
  intros Hd2. split.
  - exists (List.filter (catalog_match input) githubProjects).
    split; [done|]. split; [apply filter_sublist|].
    intros project.
    rewrite <- catalog_match_spec, !list_elem_of_In, filter_In. done.
  - intros first second. unfold catalog_source. cbn [List.filter].
    assert (catalog_match (Some (js "sms")) first = true) as ->.
    { unfold catalog_match. apply orb_true_iff. left. reflexivity. }
    assert (catalog_match (Some (js "sms")) second = false) as ->.
    { unfold catalog_match. apply orb_false_iff. split; [reflexivity|exact Hd2]. }
    reflexivity.
Qed.

Lemma catalog_source_fuzzy_filter_witness :
  let first := {| repository := js "sipgateio-sendsms-node";
                  description := js "Send an SMS with sipgate.io"; tabOffset := Some 1 |} in
  let second := {| repository := js "sipgateio-incomingcall-node";
                   description := js "Answer incoming calls"; tabOffset := Some 1 |} in
  includes (toLowerCase (js "Answer incoming calls")) (js "sms") = false
  /\ catalog_source [first; second] (Some (js "sms")) = [render_project first].
Proof.
  split; [reflexivity|].
  exact (proj2 (catalog_source_fuzzy_filter [] None (js "Send an SMS with sipgate.io")
                  (js "Answer incoming calls") (Some 1) (Some 1) eq_refl)).
Defined.

End FuzzyCatalog.

(** ** The random project identifier *)

Section RandomProjectId.

Lemma randomIndex_range (r : Q) :
  (0 <= r)%Q -> (r < 1)%Q -> (0 <= randomIndex r < 36)%Z.
Proof.
  destruct r as [p q]. unfold Qle, Qlt, randomIndex, Qfloor, Qmult, inject_Z.
  change (Z.of_nat (length characters)) with 36%Z. cbn [Qnum Qden].
  rewrite Pos.mul_1_r, !Z.mul_1_r, Z.mul_1_l, Z.mul_0_l. intros H0 H1. split.
  - apply Z.div_pos; lia.
  - apply Z.div_lt_upper_bound; lia.
Qed.

Lemma characters_all_id : forallb is_id_char characters = true.
Proof. reflexivity. Qed.

Lemma char_at_characters (i : Z) :
  (0 <= i < 36)%Z -> exists c, char_at characters i = Some c /\ is_id_char c = true.
Proof.
  intros Hi. unfold char_at. destruct (Z.ltb_spec i 0); [lia|].
  destruct (lookup_lt_is_Some_2 characters (Z.to_nat i)) as [c Hc].
  { change (length characters) with 36. lia. }
  exists c. split; [done|].
  pose proof characters_all_id as Hall. rewrite forallb_forall in Hall.
  apply Hall, list_elem_of_In, list_elem_of_lookup. by exists (Z.to_nat i).
Qed.

(** The loop draws [n] numbers and appends one character for each. *)
Lemma random_loop_spec (n : nat) :
  forall (randomChars : list (option ascii)) (w : World),
    unit_draws (rng w) ->
    exists cs w',
      random_loop n randomChars w = (Returned (randomChars ++ map Some cs), w')
      /\ length cs = n
      /\ forallb is_id_char cs = true
      /\ files w' = files w /\ events w' = events w
      /\ forall i, rng w' i = rng w (n + i).
Proof.
  induction n as [|n IH]; intros randomChars w Hw.
  - exists [], w. cbn [random_loop map]. rewrite app_nil_r.
    split; [reflexivity|]. split; [reflexivity|]. split; [reflexivity|].
    split; [reflexivity|]. split; [reflexivity|]. intros i. reflexivity.
  - destruct (Hw 0) as [H0 H1].
    destruct (char_at_characters _ (randomIndex_range _ H0 H1)) as (c & Hc & Hid).
    set (w1 := {| files := files w; rng := fun i => rng w (S i); events := events w |}).
    destruct (IH (randomChars ++ [Some c]) w1) as (cs & w' & Hrun & Hlen & Hall & Hf & He & Hr).
    { intros i. apply (Hw (S i)). }
    exists (c :: cs), w'.
    split; [|split; [|split; [|split; [|split]]]].
    + cbn [random_loop]. unfold mbind, run_bind, random. fold w1.
      rewrite Hc, Hrun. by rewrite <- app_assoc.
    + cbn [length]. by rewrite Hlen.
    + cbn [forallb]. by rewrite Hid, Hall.
    + exact Hf.
    + exact He.
    + intros i. rewrite Hr. reflexivity.
Qed.

Lemma join_chars_some (cs : str) : join_chars (map Some cs) = cs.
Proof. induction cs as [|c cs IH]; cbn; [done|]. f_equal. exact IH. Qed.

(** C10: whatever numbers in the unit interval the random generator
    returns, the identifier is the prefix [sipgateio-] followed by 20
    characters that are each a lowercase letter or a digit, 30 characters
    in all; the call consumes 20 draws and touches nothing else. *)
Theorem generateRandomGcpProjectId_shape (w : World) :
  unit_draws (rng w) ->
  exists (suffix : str) (w' : World),
    generateRandomGcpProjectId w = (Returned (js "sipgateio-" ++ suffix), w')
    /\ length (js "sipgateio-" ++ suffix) = 30
    /\ length suffix = 20
    /\ forallb is_id_char suffix = true
    /\ files w' = files w /\ events w' = events w
    /\ forall i, rng w' i = rng w (20 + i).
Proof.
  intros Hw.
  destruct (random_loop_spec 20 [] w Hw) as (cs & w' & Hrun & Hlen & Hall & Hf & He & Hr).
  exists cs, w'.
  split; [|split; [|split; [exact Hlen|split; [exact Hall|split; [exact Hf|split; [exact He|exact Hr]]]]]].
  - unfold generateRandomGcpProjectId, mbind, run_bind.
    change (Z.to_nat projectIdLength) with 20. rewrite Hrun. cbn [app].
    by rewrite join_chars_some.
  - rewrite length_app, Hlen. reflexivity.
Qed.

Lemma generateRandomGcpProjectId_shape_witness :
  let w := {| files := ∅; rng := fun i => (Z.of_nat (i mod 7) # 7)%Q; events := [] |} in
  unit_draws (rng w)
  /\ exists (suffix : str) (w' : World),
      generateRandomGcpProjectId w = (Returned (js "sipgateio-" ++ suffix), w')
      /\ length (js "sipgateio-" ++ suffix) = 30.
Proof.
  assert (unit_draws (fun i => (Z.of_nat (i mod 7) # 7)%Q)) as Hd.
  { intros i. pose proof (Nat.mod_upper_bound i 7). unfold Qle, Qlt. cbn [Qnum Qden]. lia. }
  split; [exact Hd|].
  destruct (generateRandomGcpProjectId_shape
              {| files := ∅; rng := fun i => (Z.of_nat (i mod 7) # 7)%Q; events := [] |} Hd)
    as (suffix & w' & Hrun & Hlen & _).
  exists suffix, w'. split; [exact Hrun|exact Hlen].
Defined.

End RandomProjectId.

(** ** The ConfirmationWizard *)

Section WizardFacts.

Variable COLOR_YELLOW : str.
Variable template : list str.

Lemma emit_first e w : emit e w = after_events [e] w.
Proof. reflexivity. Qed.

Lemma after_after es1 es2 w :
  after_events es2 (after_events es1 w) = after_events (es1 ++ es2) w.
Proof. unfold after_events. cbn. by rewrite <- app_assoc. Qed.

Lemma count_writes_app (l1 l2 : list Event) :
  count_writes (l1 ++ l2) = count_writes l1 + count_writes l2.
Proof. unfold count_writes. by rewrite List.filter_app, length_app. Qed.

(** C7: when the user declines the review, the wizard starts over from its
    first prompt with the file system as it was, having asked its three
    questions and written nothing; when the destination exists and the user
    declines to overwrite it, the wizard likewise starts over with the file
    system as it was, having written nothing and having emitted the
    warning.  What was said and done shows in the run that a following
    round completes on a new destination: after the events of the declined
    round come the prompts again, from the first one, then the one write,
    on the untouched file system. *)
Theorem wizard_decline_restarts (r : Round) (later : list Round) (w : World) :
  (confirm r = false ->
   interactivelyGenerateConfig COLOR_YELLOW template (r :: later) w = interactivelyGenerateConfig COLOR_YELLOW template later (after_events (review_prompts template) w)
   /\ files (after_events (review_prompts template) w) = files w
   /\ count_writes (review_prompts template) = 0
   /\ forall next : Round,
       confirm next = true ->
       has_char SLASH (filename next) = false ->
       configExists (config_path (filename next)) (files w) = false ->
       interactivelyGenerateConfig COLOR_YELLOW template (r :: next :: later) w
       = Some (resultConfig_of (envVarValues next),
               writeFileSync (config_path (filename next)) (buildEnv (envVarValues next))
                 (after_events (review_prompts template ++ review_prompts template) w)))
  /\ (confirm r = true ->
      configExists (config_path (filename r)) (files w) = true ->
      confirmoverwrite r = false ->
      let said := review_prompts template
                    ++ [EvAsk (js "confirmoverwrite");
                        EvWarn (COLOR_YELLOW ++ js "[WARN] Aborting..." ++ COLOR_DEFAULT)] in
      interactivelyGenerateConfig COLOR_YELLOW template (r :: later) w = interactivelyGenerateConfig COLOR_YELLOW template later (after_events said w)
      /\ files (after_events said w) = files w
      /\ count_writes said = 0
      /\ existsb is_warn said = true
      /\ forall next : Round,
          confirm next = true ->
          has_char SLASH (filename next) = false ->
          configExists (config_path (filename next)) (files w) = false ->
          interactivelyGenerateConfig COLOR_YELLOW template (r :: next :: later) w
          = Some (resultConfig_of (envVarValues next),
                  writeFileSync (config_path (filename next)) (buildEnv (envVarValues next))
                    (after_events (said ++ review_prompts template) w))).
Proof.
  assert (forall (said : list Event) (next : Round),
             confirm next = true ->
             configExists (config_path (filename next)) (files w) = false ->
             interactivelyGenerateConfig COLOR_YELLOW template (next :: later)
               (after_events said w)
             = Some (resultConfig_of (envVarValues next),
                     writeFileSync (config_path (filename next))
                       (buildEnv (envVarValues next))
                       (after_events (said ++ review_prompts template) w))) as Hnext.
  { intros said next Hc He. cbn [interactivelyGenerateConfig]. rewrite Hc. cbn [negb].
    rewrite !emit_first, !after_after. cbn [files after_events]. rewrite He.
    reflexivity. }
  split.
  - intros Hc.
    assert (interactivelyGenerateConfig COLOR_YELLOW template (r :: later) w
            = interactivelyGenerateConfig COLOR_YELLOW template later
                (after_events (review_prompts template) w)) as Hrestart.
    { cbn [interactivelyGenerateConfig]. rewrite Hc. cbn [negb].
      by rewrite !emit_first, !after_after. }
    split; [exact Hrestart|]. split; [done|]. split; [done|].
    intros next Hn _ He.
    assert (interactivelyGenerateConfig COLOR_YELLOW template (r :: next :: later) w
            = interactivelyGenerateConfig COLOR_YELLOW template (next :: later)
                (after_events (review_prompts template) w)) as ->.
    { cbn [interactivelyGenerateConfig]. rewrite Hc. cbn [negb].
      by rewrite !emit_first, !after_after. }
    by apply Hnext.
  - intros Hc He Ho said.
    assert (forall rest,
               interactivelyGenerateConfig COLOR_YELLOW template (r :: rest) w
               = interactivelyGenerateConfig COLOR_YELLOW template rest
                   (after_events said w)) as Hrestart.
    { intros rest. cbn [interactivelyGenerateConfig]. rewrite Hc. cbn [negb].
      rewrite !emit_first, !after_after. cbn [files after_events].
      rewrite He, Ho. done. }
    split; [apply Hrestart|]. split; [done|]. split; [done|]. split; [done|].
    intros next Hn _ Hnew. rewrite Hrestart. by apply Hnext.
Qed.

(** What a run that ends has done: it commits the answers of one confirmed
    round, and it has called [writeFileSync] once when the destination was
    new and twice when the destination existed and the overwrite was
    confirmed. *)
Lemma wizard_write_count (script : list Round) (w : World)
    (cfg : list (str * option str)) (w' : World) :
  interactivelyGenerateConfig COLOR_YELLOW template script w = Some (cfg, w') ->
  exists (r : Round) (new : list Event),
    r ∈ script /\ confirm r = true
    /\ cfg = resultConfig_of (envVarValues r)
    /\ events w' = events w ++ new
    /\ files w' = <[config_path (filename r) := buildEnv (envVarValues r)]> (files w)
    /\ count_writes new
       = (if configExists (config_path (filename r)) (files w) then 2 else 1)
    /\ (configExists (config_path (filename r)) (files w) = true ->
        confirmoverwrite r = true).
Proof.
  revert w. induction script as [|r later IH]; intros w Hrun; [done|].
  assert (forall said w1,
             w1 = after_events said w -> count_writes said = 0 ->
             interactivelyGenerateConfig COLOR_YELLOW template later w1 = Some (cfg, w') ->
             exists (r0 : Round) (new : list Event),
               r0 ∈ r :: later /\ confirm r0 = true
               /\ cfg = resultConfig_of (envVarValues r0)
               /\ events w' = events w ++ new
               /\ files w' = <[config_path (filename r0) := buildEnv (envVarValues r0)]> (files w)
               /\ count_writes new
                  = (if configExists (config_path (filename r0)) (files w) then 2 else 1)
               /\ (configExists (config_path (filename r0)) (files w) = true ->
                   confirmoverwrite r0 = true)) as Hretry.
  { intros said w1 -> Hsaid Hlater.
    destruct (IH _ Hlater) as (r0 & new & Hin & Hc & Hcfg & Hev & Hfiles & Hcount & Hover).
    exists r0, (said ++ new). cbn [after_events files events] in *.
    split; [by right|]. split; [done|]. split; [done|].
    split; [by rewrite Hev, app_assoc|]. split; [done|].
    split; [by rewrite count_writes_app, Hsaid|done]. }
  cbn [interactivelyGenerateConfig] in Hrun.
  rewrite !emit_first, !after_after in Hrun.
  destruct (confirm r) eqn:Hc; cbn [negb] in Hrun.
  - cbn [files after_events] in Hrun.
    destruct (configExists (config_path (filename r)) (files w)) eqn:He.
    + destruct (confirmoverwrite r) eqn:Ho.
      * injection Hrun as <- <-.
        eexists r, _. split; [left|]. split; [done|]. split; [done|].
        cbn [writeFileSync after_events files events].
        split; [by rewrite <- !app_assoc|].
        split; [by rewrite insert_insert_eq|]. rewrite He. by split.
      * eapply Hretry; cycle 2; [exact Hrun|reflexivity|reflexivity].
    + injection Hrun as <- <-.
      eexists r, _. split; [left|]. split; [done|]. split; [done|].
      cbn [writeFileSync after_events files events].
      split; [by rewrite <- !app_assoc|]. split; [done|]. rewrite He. by split.
  - eapply Hretry; cycle 2; [exact Hrun|reflexivity|reflexivity].
Qed.

(** C1 fails on the overwrite path: with an existing destination and both
    confirmations given, the run that returns the configuration has called
    [writeFileSync] twice on that destination, where the claim allows one
    save and one overwrite. *)
Theorem wizard_overwrite_saves_twice (old : str) (values : Answers) :
  let w := {| files := {[ js "./config.cfg" := old ]}; rng := fun _ => 0%Q; events := [] |} in
  let r := {| envVarValues := values; filename := js "config";
              confirm := true; confirmoverwrite := true |} in
  exists w',
    interactivelyGenerateConfig COLOR_YELLOW template [r] w = Some (resultConfig_of values, w')
    /\ events w'
       = review_prompts template
           ++ [EvAsk (js "confirmoverwrite");
               EvWrite (js "./config.cfg") (buildEnv values);
               EvWrite (js "./config.cfg") (buildEnv values)]
    /\ count_writes (events w') = 2.
Proof.
  intros w r. eexists. split; [|split].
  - cbn [interactivelyGenerateConfig]. unfold r at 1. cbn [confirm negb].
    rewrite !emit_first, !after_after. cbn [files after_events].
    assert (configExists (config_path (filename r)) (files w) = true) as ->.
    { unfold configExists. apply bool_decide_eq_true.
      change (config_path (filename r)) with (js "./config.cfg").
      unfold w. cbn [files]. rewrite lookup_singleton_eq. by eexists. }
    unfold r at 1. cbn [confirmoverwrite]. reflexivity.
  - reflexivity.
  - reflexivity.
Qed.

End WizardFacts.

Lemma wizard_decline_restarts_witness :
  let w := {| files := {[ js "./config.cfg" := js "OLD=1" ]}; rng := fun _ => 0%Q; events := [] |} in
  let declined := {| envVarValues := [(js "A", AStr (js "1"))]; filename := js "config";
                     confirm := true; confirmoverwrite := false |} in
  let accepted := {| envVarValues := [(js "A", AStr (js "2"))]; filename := js "other";
                     confirm := true; confirmoverwrite := false |} in
  let unsure := {| envVarValues := [(js "A", AStr (js "3"))]; filename := js "config";
                   confirm := false; confirmoverwrite := false |} in
  let said := review_prompts [js "A=0"]
                ++ [EvAsk (js "confirmoverwrite");
                    EvWarn (js "<yellow>" ++ js "[WARN] Aborting..." ++ COLOR_DEFAULT)] in
  confirm declined = true
  /\ configExists (config_path (filename declined)) (files w) = true
  /\ confirmoverwrite declined = false
  /\ confirm accepted = true
  /\ has_char SLASH (filename accepted) = false
  /\ configExists (config_path (filename accepted)) (files w) = false
  /\ interactivelyGenerateConfig (js "<yellow>") [js "A=0"] [declined; accepted] w
     = Some ([(js "A", Some (js "2"))],
             writeFileSync (js "./other.cfg") (buildEnv [(js "A", AStr (js "2"))])
               (after_events (said ++ review_prompts [js "A=0"]) w))
  /\ confirm unsure = false
  /\ interactivelyGenerateConfig (js "<yellow>") [js "A=0"] [unsure; accepted] w
     = Some ([(js "A", Some (js "2"))],
             writeFileSync (js "./other.cfg") (buildEnv [(js "A", AStr (js "2"))])
               (after_events (review_prompts [js "A=0"] ++ review_prompts [js "A=0"]) w)).
Proof.
  intros w declined accepted unsure said.
  assert (configExists (config_path (filename declined)) (files w) = true) as He
    by (vm_compute; reflexivity).
  assert (configExists (config_path (filename accepted)) (files w) = false) as Hnew
    by (vm_compute; reflexivity).
  split; [reflexivity|]. split; [exact He|]. split; [reflexivity|].
  split; [reflexivity|]. split; [reflexivity|]. split; [exact Hnew|].
  split.
  - destruct (proj2 (wizard_decline_restarts (js "<yellow>") [js "A=0"] declined [] w)
                eq_refl He eq_refl) as (_ & _ & _ & _ & Hnext).
    exact (Hnext accepted eq_refl eq_refl Hnew).
  - split; [reflexivity|].
    destruct (proj1 (wizard_decline_restarts (js "<yellow>") [js "A=0"] unsure [] w)
                eq_refl) as (_ & _ & _ & Hnext).
    exact (Hnext accepted eq_refl eq_refl Hnew).
Defined.

(** ** The ValidatedFieldSelector *)

Section SelectorFacts.

Variable COLOR_YELLOW : str.
Variable commands : str -> option str.

Implicit Types (config : Config) (stdout r raw name : str) (w : World).

Lemma includes_empty s : includes s [] = true.
Proof. by destruct s. Qed.

Lemma prefix_includes (l s : str) : prefixb l s = true -> includes s l = true.
Proof. intros H. destruct s; cbn [includes]; by rewrite H. Qed.

Lemma includes_cons (x : ascii) (l s : str) : includes s l = true -> includes (x :: s) l = true.
Proof. intros H. cbn [includes]. rewrite H. apply orb_true_r. Qed.

(** The first piece of a split is a prefix of the text. *)
Lemma split_head_prefix (c : ascii) (s : str) :
  match split c s with l :: _ => prefixb l s = true | [] => False end.
Proof.
  induction s as [|x s IH]; cbn [split]; [done|].
  destruct (Ascii.eqb x c); [done|].
  destruct (split c s) as [|l ls]; [done|].
  cbn [prefixb]. by rewrite Ascii.eqb_refl, IH.
Qed.

(** A line of the listing occurs in the listing. *)
Lemma line_included (c : ascii) (s line : str) : line ∈ split c s -> includes s line = true.
Proof.
  revert line. induction s as [|x s IH]; intros line; cbn [split].
  - intros ->%list_elem_of_singleton. reflexivity.
  - pose proof (split_head_prefix c s) as Hp.
    destruct (Ascii.eqb x c).
    + intros [->|Hin]%elem_of_cons; [reflexivity|]. by apply includes_cons, IH.
    + destruct (split c s) as [|l ls]; [done|].
      intros [->|Hin]%elem_of_cons.
      * apply prefix_includes. cbn [prefixb]. by rewrite Ascii.eqb_refl, Hp.
      * apply includes_cons, IH. by right.
Qed.

Ltac run_step :=
  unfold mbind, run_bind, mret, run_ret, say, execCommand, logUsedConfig, throw;
  cbn [default from_option id show_or fmap option_fmap option_map].

Lemma region_accept config stdout r sel w :
  commands regions_command = Some stdout ->
  obj_get REGION_KEY config = Some r -> r <> [] -> includes stdout r = true ->
  selectGCPRegion COLOR_YELLOW commands config sel w
  = (Returned (Some r),
     after_events [EvLog (js "Fetching Google Cloud regions..."); EvExec regions_command;
                   using_config REGION_KEY r] w).
Proof.
  intros Hcmd Hg Hr Hin.
  unfold selectGCPRegion. run_step.
  fold regions_command. rewrite Hcmd. fold REGION_KEY. rewrite Hg. run_step.
  rewrite Hin. cbn [negb orb].
  rewrite bool_decide_eq_false_2 by (intros [= ->]; done).
  rewrite bool_decide_eq_false_2 by congruence. cbn [orb].
  rewrite !emit_first, !after_after. reflexivity.
Qed.

Lemma region_unset config stdout sel w :
  commands regions_command = Some stdout ->
  truthy (obj_get REGION_KEY config) = false ->
  selectGCPRegion COLOR_YELLOW commands config sel w
  = (Returned (Some sel),
     after_events [EvLog (js "Fetching Google Cloud regions..."); EvExec regions_command;
                   EvAsk (js "selectedRegion")] w).
Proof.
  intros Hcmd Hg.
  unfold selectGCPRegion. run_step.
  fold regions_command. rewrite Hcmd. fold REGION_KEY.
  destruct (obj_get REGION_KEY config) as [[|c r]|]; [|done|]; run_step;
    rewrite includes_empty; cbn [negb];
    repeat case_bool_decide; try done; cbn [orb];
    rewrite !emit_first, !after_after; reflexivity.
Qed.

Lemma region_invalid config stdout r sel w :
  commands regions_command = Some stdout ->
  obj_get REGION_KEY config = Some r -> includes stdout r = false ->
  selectGCPRegion COLOR_YELLOW commands config sel w
  = (Returned (Some sel),
     after_events [EvLog (js "Fetching Google Cloud regions..."); EvExec regions_command;
                   invalid_warning COLOR_YELLOW REGION_KEY r;
                   EvAsk (js "selectedRegion")] w).
Proof.
  intros Hcmd Hg Hin.
  unfold selectGCPRegion. run_step.
  fold regions_command. rewrite Hcmd. fold REGION_KEY. rewrite Hg. run_step.
  rewrite Hin. cbn [negb]. rewrite orb_true_r.
  rewrite !emit_first, !after_after. reflexivity.
Qed.

(** The region selector always returns, and it skips the prompt only for a
    configured, non-empty value. *)
Lemma region_total config stdout sel w :
  commands regions_command = Some stdout ->
  exists (v : str) (es : list Event),
    selectGCPRegion COLOR_YELLOW commands config sel w
    = (Returned (Some v), after_events es w)
    /\ (existsb is_ask es = false -> obj_get REGION_KEY config = Some v /\ v <> []).
Proof.
  intros Hcmd.
  destruct (obj_get REGION_KEY config) as [[|c r]|] eqn:Hg.
  - eexists _, _. split; [apply (region_unset _ stdout); [done|by rewrite Hg]|done].
  - destruct (includes stdout (c :: r)) eqn:Hin.
    + eexists _, _. split; [by apply (region_accept _ stdout)|done].
    + eexists _, _. split; [by apply (region_invalid _ stdout (c :: r))|done].
  - eexists _, _. split; [apply (region_unset _ stdout); [done|by rewrite Hg]|done].
Qed.

Lemma project_accept config stdout raw sel w :
  commands projects_command = Some stdout ->
  obj_get PROJECT_KEY config = Some raw ->
  trim raw <> [] -> includes stdout (trim raw) = true -> has_traversal (trim raw) = false ->
  selectGoogleCloudProject COLOR_YELLOW commands config sel w
  = gcloudSetProject COLOR_YELLOW commands (trim raw)
      (after_events [EvLog (js "Fetching Google Cloud projects..."); EvExec projects_command;
                     using_config PROJECT_KEY (trim raw)] w).
Proof.
  intros Hcmd Hg Hne Hin Ht.
  unfold selectGoogleCloudProject. run_step.
  fold projects_command. rewrite Hcmd. fold PROJECT_KEY. rewrite Hg. run_step.
  rewrite Hin, Ht. cbn [negb andb].
  destruct (trim raw) as [|c name] eqn:E; [done|]. cbn [truthy andb].
  rewrite !emit_first, !after_after. reflexivity.
Qed.

Lemma project_unset config stdout sel w :
  commands projects_command = Some stdout ->
  truthy (trim <$> obj_get PROJECT_KEY config) = false ->
  selectGoogleCloudProject COLOR_YELLOW commands config sel w
  = project_after_prompt COLOR_YELLOW commands stdout sel
      (after_events [EvLog (js "Fetching Google Cloud projects..."); EvExec projects_command;
                     EvAsk (js "selectedProject")] w).
Proof.
  intros Hcmd Hg.
  unfold selectGoogleCloudProject. run_step.
  fold projects_command. rewrite Hcmd. fold PROJECT_KEY.
  destruct (obj_get PROJECT_KEY config) as [raw|]; run_step.
  - cbn [fmap option_fmap option_map] in Hg.
    destruct (trim raw) as [|c name]; [|done].
    rewrite includes_empty. cbn [truthy andb negb has_traversal traversal_from dotdot_here orb].
    rewrite !emit_first, !after_after. reflexivity.
  - rewrite includes_empty. cbn [truthy andb negb].
    rewrite !emit_first, !after_after. reflexivity.
Qed.

Lemma project_invalid config stdout raw sel w :
  commands projects_command = Some stdout ->
  obj_get PROJECT_KEY config = Some raw ->
  includes stdout (trim raw) = false \/ has_traversal (trim raw) = true ->
  selectGoogleCloudProject COLOR_YELLOW commands config sel w
  = project_after_prompt COLOR_YELLOW commands stdout sel
      (after_events [EvLog (js "Fetching Google Cloud projects..."); EvExec projects_command;
                     invalid_warning COLOR_YELLOW PROJECT_KEY (trim raw);
                     EvAsk (js "selectedProject")] w).
Proof.
  intros Hcmd Hg Hbad.
  unfold selectGoogleCloudProject. run_step.
  fold projects_command. rewrite Hcmd. fold PROJECT_KEY. rewrite Hg. run_step.
  assert (includes stdout (trim raw) && negb (has_traversal (trim raw)) = false) as ->.
  { destruct Hbad as [-> | ->]; [done|apply andb_false_r]. }
  rewrite andb_false_r. cbn [negb].
  rewrite !emit_first, !after_after. reflexivity.
Qed.

Lemma gcloudSetProject_ok name out w :
  commands (set_project_command name) = Some out ->
  gcloudSetProject COLOR_YELLOW commands name w
  = (Returned name,
     after_events
       [EvExec (set_project_command name);
        EvWarn (COLOR_YELLOW ++ js "[WARN] Important: Check if Cloud Build API is enabled for "
                ++ name ++ COLOR_DEFAULT)] w).
Proof.
  intros Hcmd. unfold gcloudSetProject. run_step.
  fold (set_project_command name). rewrite Hcmd.
  rewrite !emit_first, !after_after. reflexivity.
Qed.

(** The example selector, for comparison, accepts a configured name only
    when it is the repository of a catalog entry. *)
Lemma example_name_exact config (githubProjects : list ProjectData) raw sel w :
  obj_get (js "EXAMPLE_REPO_NAME") config = Some raw ->
  trim raw <> [] ->
  Forall (fun x => repository x <> trim raw) githubProjects ->
  selectSipgateIOProject COLOR_YELLOW config githubProjects sel w
  = (Returned (trim (slice sel 0 (indexOf TAB sel))),
     after_events [invalid_warning COLOR_YELLOW (js "EXAMPLE_REPO_NAME") (trim raw);
                   EvAsk (js "selectedProject")] w).
Proof.
  intros Hg Hne Hno.
  unfold selectSipgateIOProject. rewrite Hg. run_step.
  destruct (trim raw) as [|c name] eqn:E; [done|]. cbn [truthy negb orb andb].
  rewrite bool_decide_eq_false_2.
  - cbn [negb]. rewrite !emit_first, !after_after. reflexivity.
  - intros Hex. apply Exists_exists in Hex as (x & Hx & Heq).
    rewrite Forall_forall in Hno. apply (Hno x Hx). congruence.
Qed.

(** C8, as amended: with the listings at hand, the region selector and the
    cloud project selector accept without prompting a configured value that
    is not empty, is one of the lines of the authoritative listing and (for
    the project name) holds no parent-directory traversal; an absent or
    empty value leads to the prompt without a warning; a value that does not
    occur in the listing, or a project name with a traversal sequence, leads
    to a validation warning followed by the prompt, after which the run goes
    on as for an unconfigured value; the region selector always returns, and
    skips its prompt only for a configured, non-empty value. *)
Theorem validated_selection (config : Config) (regions projects selected : str) (w : World) :
  commands regions_command = Some regions ->
  commands projects_command = Some projects ->
  let fetching_regions := EvLog (js "Fetching Google Cloud regions...") in
  let fetching_projects := EvLog (js "Fetching Google Cloud projects...") in
  let select_region := selectGCPRegion COLOR_YELLOW commands config selected w in
  let select_project := selectGoogleCloudProject COLOR_YELLOW commands config selected w in
  (forall r, obj_get REGION_KEY config = Some r -> r <> [] -> r ∈ split NL regions ->
     select_region
     = (Returned (Some r),
        after_events [fetching_regions; EvExec regions_command; using_config REGION_KEY r] w))
  /\ (truthy (obj_get REGION_KEY config) = false ->
      select_region
      = (Returned (Some selected),
         after_events [fetching_regions; EvExec regions_command;
                       EvAsk (js "selectedRegion")] w))
  /\ (forall r, obj_get REGION_KEY config = Some r -> includes regions r = false ->
      select_region
      = (Returned (Some selected),
         after_events [fetching_regions; EvExec regions_command;
                       invalid_warning COLOR_YELLOW REGION_KEY r;
                       EvAsk (js "selectedRegion")] w))
  /\ (exists (v : str) (es : list Event),
         select_region = (Returned (Some v), after_events es w)
         /\ (existsb is_ask es = false -> obj_get REGION_KEY config = Some v /\ v <> []))
  /\ (forall raw, obj_get PROJECT_KEY config = Some raw ->
      trim raw <> [] -> trim raw ∈ split NL projects -> has_traversal (trim raw) = false ->
      select_project
      = gcloudSetProject COLOR_YELLOW commands (trim raw)
          (after_events [fetching_projects; EvExec projects_command;
                         using_config PROJECT_KEY (trim raw)] w))
  /\ (truthy (trim <$> obj_get PROJECT_KEY config) = false ->
      select_project
      = project_after_prompt COLOR_YELLOW commands projects selected
          (after_events [fetching_projects; EvExec projects_command;
                         EvAsk (js "selectedProject")] w))
  /\ (forall raw, obj_get PROJECT_KEY config = Some raw ->
      includes projects (trim raw) = false \/ has_traversal (trim raw) = true ->
      select_project
      = project_after_prompt COLOR_YELLOW commands projects selected
          (after_events [fetching_projects; EvExec projects_command;
                         invalid_warning COLOR_YELLOW PROJECT_KEY (trim raw);
                         EvAsk (js "selectedProject")] w)).
Proof.
  intros Hr Hp fr fp select_region select_project.
  split; [|split; [|split; [|split; [|split; [|split]]]]].
  - intros r Hg Hne Hin. apply (region_accept _ regions); try done.
    by apply (line_included NL).
  - by apply (region_unset _ regions).
  - intros r Hg Hin. by apply (region_invalid _ regions).
  - by apply (region_total _ regions).
  - intros raw Hg Hne Hin Ht. apply (project_accept _ projects); try done.
    by apply (line_included NL).
  - by apply (project_unset _ projects).
  - intros raw Hg Hbad. by apply (project_invalid _ projects).
Qed.

End SelectorFacts.

(** The traversal pattern on a few names. *)
Example has_traversal_examples :
  has_traversal (js "../x") = true /\ has_traversal (js "a/../b") = true
  /\ has_traversal (js "a/..") = true /\ has_traversal (js "..") = true
  /\ has_traversal (js "a..b") = false /\ has_traversal (js "...") = false
  /\ has_traversal (js "x/...") = false /\ has_traversal (js "my-project") = false.
Proof. repeat split. Qed.

Lemma validated_selection_witness :
  let commands := fun command : str =>
    if decide (command = regions_command)
    then Some (js "europe-west3" ++ [NL] ++ js "us-central1" ++ [NL])
    else Some (js "my-project" ++ [NL] ++ js "other-project" ++ [NL]) in
  let config := [(REGION_KEY, js "us-central1"); (PROJECT_KEY, js " my-project ")] in
  let w := {| files := ∅; rng := fun _ => 0%Q; events := [] |} in
  commands regions_command = Some (js "europe-west3" ++ [NL] ++ js "us-central1" ++ [NL])
  /\ commands projects_command = Some (js "my-project" ++ [NL] ++ js "other-project" ++ [NL])
  /\ selectGCPRegion (js "<yellow>") commands config (js "europe-west3") w
     = (Returned (Some (js "us-central1")),
        after_events [EvLog (js "Fetching Google Cloud regions..."); EvExec regions_command;
                      using_config REGION_KEY (js "us-central1")] w).
Proof.
  intros commands config w.
  assert (commands regions_command
          = Some (js "europe-west3" ++ [NL] ++ js "us-central1" ++ [NL])) as Hr
    by reflexivity.
  assert (commands projects_command
          = Some (js "my-project" ++ [NL] ++ js "other-project" ++ [NL])) as Hp
    by reflexivity.
  split; [exact Hr|]. split; [exact Hp|].
  refine (proj1 (validated_selection (js "<yellow>") commands config _ _ (js "europe-west3") w
                   Hr Hp) (js "us-central1") _ _ _).
  - reflexivity.
  - discriminate.
  - vm_compute. right. left.
Defined.

(** C8 as stated fails twice: when nothing is configured the selector
    prompts without any validation warning, and the region [us], which is
    not one of the listed regions but occurs inside [us-central1], is
    accepted without prompting. *)
Lemma validated_selection_counterexample :
  let commands := fun _ : str => Some (js "europe-west3" ++ [NL] ++ js "us-central1" ++ [NL]) in
  let w := {| files := ∅; rng := fun _ => 0%Q; events := [] |} in
  (exists es,
      selectGCPRegion (js "<yellow>") commands [] (js "europe-west3") w
      = (Returned (Some (js "europe-west3")), after_events es w)
      /\ existsb is_warn es = false /\ existsb is_ask es = true)
  /\ (exists es,
         selectGCPRegion (js "<yellow>") commands [(REGION_KEY, js "us")] (js "europe-west3") w
         = (Returned (Some (js "us")), after_events es w)
         /\ existsb is_ask es = false
         /\ js "us" ∉ split NL (js "europe-west3" ++ [NL] ++ js "us-central1" ++ [NL])).
Proof.
  intros commands w. split.
  - eexists. split; [apply (region_unset _ commands) with (stdout := js "europe-west3" ++ [NL] ++ js "us-central1" ++ [NL]); reflexivity|].
    split; reflexivity.
  - eexists. split; [apply (region_accept _ commands) with (stdout := js "europe-west3" ++ [NL] ++ js "us-central1" ++ [NL]); try reflexivity; discriminate|].
    split; [reflexivity|].
    vm_compute. intros H. repeat (apply elem_of_cons in H as [H|H]; [discriminate|]).
    by apply elem_of_nil in H.
Qed.

(** * Further properties of the code *)

(** ** The parser, line by line *)

Section ParserLines.

Implicit Types (line comment : str) (envArray cs : list str) (qs : list Question).

Lemma question_core_comment line comment :
  question_core (composeQuestion line comment) = question_core (composeQuestion line []).
Proof. reflexivity. Qed.

Lemma extract_fold_core envArray comment qs :
  map question_core (snd (fold_left extract_step envArray (comment, qs)))
  = map question_core qs
      ++ map (fun line => question_core (composeQuestion line []))
           (List.filter (fun line => negb (startsWith HASH line)) envArray).
Proof.
  revert comment qs. induction envArray as [|l ls IH]; intros comment qs.
  - cbn. by rewrite app_nil_r.
  - cbn [fold_left List.filter]. unfold extract_step at 2.
    destruct (startsWith HASH l); cbn [negb].
    + apply IH.
    + rewrite IH, map_app. cbn [map]. by rewrite <- app_assoc.
Qed.

(** X1: the parser emits one question for each line that does not start
    with a hash sign, in template order, and the name, message, type and
    default of a question depend on its own line only; a template of
    comment lines alone gives no question. *)
Theorem extractQuestions_one_per_line (envArray : list str) :
  map question_core (extractQuestions envArray)
  = map (fun line => question_core (composeQuestion line []))
      (List.filter (fun line => negb (startsWith HASH line)) envArray)
  /\ (forallb (startsWith HASH) envArray = true -> extractQuestions envArray = []).
Proof.
  assert (map question_core (extractQuestions envArray)
          = map (fun line => question_core (composeQuestion line []))
              (List.filter (fun line => negb (startsWith HASH line)) envArray)) as Hcore.
  { unfold extractQuestions. by rewrite extract_fold_core. }
  split; [exact Hcore|].
  intros Hall.
  assert (List.filter (fun line => negb (startsWith HASH line)) envArray = []) as Hnone.
  { clear Hcore. induction envArray as [|l ls IH]; [done|].
    cbn [forallb] in Hall. apply andb_prop in Hall as [Hl Hls].
    cbn [List.filter]. rewrite Hl. cbn [negb]. auto. }
  rewrite Hnone in Hcore. cbn [map] in Hcore.
  by destruct (extractQuestions envArray).
Qed.

Lemma extractQuestions_one_per_line_witness :
  forallb (startsWith HASH) [js "# only"; js "#comments"] = true
  /\ extractQuestions [js "# only"; js "#comments"] = [].
Proof.
  split; [reflexivity|].
  exact (proj2 (extractQuestions_one_per_line [js "# only"; js "#comments"]) eq_refl).
Defined.

Lemma extract_fold_comments cs comment qs :
  forallb (startsWith HASH) cs = true ->
  fold_left extract_step cs (comment, qs)
  = (comment ++ concat (map info_line cs), qs).
Proof.
  revert comment. induction cs as [|c cs IH]; intros comment Hcs.
  - cbn. by rewrite app_nil_r.
  - cbn [forallb] in Hcs. apply andb_prop in Hcs as [Hc Hcs].
    cbn [fold_left map concat]. unfold extract_step at 2. rewrite Hc.
    rewrite IH by done. unfold info_line at 2. by rewrite <- !app_assoc.
Qed.

Lemma extract_fold_reset (before : list str) :
  match last before with Some l => startsWith HASH l = false | None => True end ->
  fst (fold_left extract_step before ([], [])) = [].
Proof.
  destruct before as [|l before _] using rev_ind; [done|].
  rewrite last_snoc. intros Hl. rewrite fold_left_app. cbn [fold_left].
  destruct (fold_left extract_step before ([], [])) as [c qs].
  unfold extract_step. by rewrite Hl.
Qed.

(** X2: the help text of a question is made of the comment lines that come
    right before its line, one info line each, and of nothing older: the
    accumulated text is dropped as soon as a question has been emitted. *)
Theorem extractQuestions_help_text (before cs post : list str) (line : str) :
  match last before with Some l => startsWith HASH l = false | None => True end ->
  forallb (startsWith HASH) cs = true ->
  startsWith HASH line = false ->
  extractQuestions (before ++ cs ++ line :: post)
  = extractQuestions before
      ++ composeQuestion line (concat (map info_line cs)) :: extractQuestions post.
Proof.
  intros Hb Hcs Hl. rewrite app_assoc, extractQuestions_split by done.
  rewrite fold_left_app.
  pose proof (extract_fold_reset before Hb) as Hreset.
  assert (extractQuestions (before ++ cs) = extractQuestions before) as ->.
  { unfold extractQuestions. rewrite fold_left_app.
    destruct (fold_left extract_step before ([], [])) as [c qs].
    by rewrite extract_fold_comments. }
  destruct (fold_left extract_step before ([], [])) as [c qs]. cbn [fst] in Hreset.
  subst c. by rewrite extract_fold_comments.
Qed.

Lemma extractQuestions_help_text_witness :
  extractQuestions ([js "# old"; js "A=1"] ++ [js "# the token"; js "#secret"]
                      ++ js "TOKEN=abc" :: [js "B=2"])
  = extractQuestions [js "# old"; js "A=1"]
      ++ composeQuestion (js "TOKEN=abc")
           (concat (map info_line [js "# the token"; js "#secret"]))
      :: extractQuestions [js "B=2"].
Proof.
  apply extractQuestions_help_text; reflexivity.
Defined.

Lemma legacy_fold_core (envArray : list str) comment qs :
  map question_core (snd (fold_left Legacy.extract_step envArray (comment, qs)))
  = map question_core qs
      ++ map (fun line => question_core (composeQuestion line []))
           (List.filter (fun line => negb (startsWith HASH line)) envArray).
Proof.
  revert comment qs. induction envArray as [|l ls IH]; intros comment qs.
  - cbn. by rewrite app_nil_r.
  - cbn [fold_left List.filter]. unfold Legacy.extract_step at 2.
    destruct (startsWith HASH l); cbn [negb].
    + apply IH.
    + rewrite IH, map_app. cbn [map]. by rewrite <- app_assoc.
Qed.

(** X3: the two copies of the parser, the one of the entry file and its
    earlier copy, produce questions with the same names, messages, types
    and defaults on every template; they differ in the decoration of the
    prompt only. *)
Theorem legacy_parser_agrees (envArray : list str) :
  map question_core (Legacy.extractQuestions envArray)
  = map question_core (extractQuestions envArray).
Proof.
  unfold Legacy.extractQuestions, extractQuestions.
  by rewrite legacy_fold_core, extract_fold_core.
Qed.

(** X4: a configuration line without an equals sign is not skipped: it
    names the variable obtained by dropping its last character, and its
    value is drawn from the whole line. *)
Theorem extractEnv_without_equals (line : str) :
  has_char EQ line = false ->
  extractEnv line = (trim (removelast line), match_runs (trim line)).
Proof.
  intros He%has_char_false. unfold extractEnv, indexOf.
  rewrite indexOf_from_absent by done. change (-1 + 1)%Z with 0%Z.
  by rewrite slice_drop_last, slice_whole.
Qed.

Lemma extractEnv_without_equals_witness :
  has_char EQ (js "TOKEN 'x'") = false
  /\ extractEnv (js "TOKEN 'x'") = (js "TOKEN 'x", Some [js "TOKEN "; js "x"]).
Proof.
  split; [reflexivity|].
  rewrite (extractEnv_without_equals (js "TOKEN 'x'") eq_refl). reflexivity.
Defined.

End ParserLines.

(** ** Loading a configuration *)

Section LoadFacts.

Implicit Types (k line s t : str) (ls : list str) (acc : Config).

Lemma obj_get_fold_other k ls acc :
  Forall (fun line => fst (extractEnv line) <> k) ls ->
  obj_get k (fold_left load_step ls acc) = obj_get k acc.
Proof.
  revert acc. induction ls as [|l ls IH]; intros acc Hls; [done|].
  inversion Hls as [|? ? Hl Hls']; subst. cbn [fold_left]. rewrite IH by done.
  unfold load_step. destruct (extractEnv l) as [n e]. cbn [fst] in Hl.
  by rewrite obj_get_prop_set_ne.
Qed.

(** X5: when several lines of a file name the same variable, other than
    [__proto__], the loaded configuration holds the value of the last of
    them. *)
Theorem parseConfig_last_wins (content line : str) (earlier later : list str) :
  config_lines content = earlier ++ line :: later ->
  fst (extractEnv line) <> PROTO ->
  Forall (fun l => fst (extractEnv l) <> fst (extractEnv line)) later ->
  obj_get (fst (extractEnv line)) (parseConfig content)
  = Some (first_or_empty (snd (extractEnv line))).
Proof.
  intros Hlines Hname Hlater. rewrite parseConfig_fold, Hlines, fold_left_app.
  cbn [fold_left]. rewrite obj_get_fold_other by done.
  unfold load_step. destruct (extractEnv line) as [n e]. cbn [fst snd] in *.
  by apply obj_get_prop_set_eq.
Qed.

Lemma parseConfig_last_wins_witness :
  let content := js "A=1" ++ [NL] ++ js "B=2" ++ [NL] ++ js "A='3'" ++ [NL] ++ js "C=4" in
  config_lines content = [js "A=1"; js "B=2"] ++ js "A='3'" :: [js "C=4"]
  /\ obj_get (js "A") (parseConfig content) = Some (js "3").
Proof.
  intros content. split; [reflexivity|].
  refine (parseConfig_last_wins content (js "A='3'") [js "A=1"; js "B=2"] [js "C=4"]
            eq_refl _ _).
  - discriminate.
  - repeat constructor; discriminate.
Defined.

Lemma obj_keys_set_old {V : Type} k (x : V) (o : list (str * V)) :
  k ∈ obj_keys o -> obj_keys (obj_set k x o) = obj_keys o.
Proof.
  induction o as [|[k' x'] o IH]; cbn [obj_keys map fst obj_set].
  - by intros ?%elem_of_nil.
  - destruct (decide (k' = k)) as [->|Hne]; [done|].
    intros [?|Hin]%elem_of_cons; [congruence|].
    cbn [map fst]. f_equal. by apply IH.
Qed.

Lemma obj_set_nodup {V : Type} k (x : V) (o : list (str * V)) :
  NoDup (obj_keys o) -> NoDup (obj_keys (obj_set k x o)).
Proof.
  intros Hnd. destruct (decide (k ∈ obj_keys o)) as [Hin|Hout].
  - by rewrite obj_keys_set_old.
  - rewrite obj_set_fresh by done. unfold obj_keys. rewrite map_app.
    apply NoDup_app. split; [done|]. split.
    + intros y Hy ->%list_elem_of_singleton. done.
    + apply NoDup_singleton.
Qed.

Lemma prop_set_nodup {V : Type} k (x : V) (o : list (str * V)) :
  NoDup (obj_keys o) -> NoDup (obj_keys (prop_set k x o)).
Proof.
  intros Hnd. unfold prop_set. case_bool_decide; [done|].
  destruct (is_array_index k); cbn [andb]; [|by apply obj_set_nodup].
  case_bool_decide as Hin; cbn [negb]; [by apply obj_set_nodup|].
  by apply insert_index_nodup.
Qed.

(** X6: however often a file repeats a variable, the loaded configuration
    holds each name once. *)
Theorem parseConfig_keys_unique (content : str) : NoDup (obj_keys (parseConfig content)).
Proof.
  rewrite parseConfig_fold.
  assert (forall ls acc, NoDup (obj_keys acc) ->
                         NoDup (obj_keys (fold_left load_step ls acc))) as H.
  { induction ls as [|l ls IH]; intros acc Hacc; [done|].
    cbn [fold_left]. apply IH. unfold load_step.
    destruct (extractEnv l). by apply prop_set_nodup. }
  apply H. constructor.
Qed.

Lemma split_nonempty c s : split c s <> [].
Proof.
  destruct s as [|x s]; cbn [split]; [done|].
  destruct (Ascii.eqb x c); [done|]. by destruct (split c s).
Qed.

(** Splitting distributes over a separator. *)
Lemma split_app_sep c s t : split c (s ++ c :: t) = split c s ++ split c t.
Proof.
  induction s as [|x s IH]; cbn [app split].
  - by rewrite Ascii.eqb_refl.
  - destruct (Ascii.eqb x c); [by rewrite IH|].
    rewrite IH. pose proof (split_nonempty c s).
    by destruct (split c s).
Qed.

Lemma split_no_sep c s : has_char c s = false -> split c s = [s].
Proof.
  unfold has_char. induction s as [|x s IH]; cbn [existsb split]; [done|].
  intros [Hx Hs]%orb_false_elim. rewrite Hx, IH by done. done.
Qed.

Lemma config_lines_app_sep s t :
  config_lines (s ++ NL :: t) = config_lines s ++ config_lines t.
Proof. unfold config_lines. by rewrite split_app_sep, List.filter_app. Qed.

(** X7: a comment line (one that starts with a hash sign) or a blank line
    between two parts of a file has no effect on what is loaded. *)
Theorem parseConfig_skips_comments (above below line : str) :
  has_char NL line = false ->
  startsWith HASH line = true \/ trim line = [] ->
  parseConfig (above ++ NL :: line ++ NL :: below) = parseConfig (above ++ NL :: below).
Proof.
  intros Hnl Hskip. rewrite !parseConfig_fold, !config_lines_app_sep.
  assert (config_lines line = []) as ->; [|done].
  unfold config_lines. rewrite split_no_sep by done. cbn [List.filter].
  destruct Hskip as [-> | ->]; [done|].
  rewrite bool_decide_eq_true_2 by done. by rewrite andb_false_r.
Qed.

Lemma parseConfig_skips_comments_witness :
  has_char NL (js "# the region") = false
  /\ parseConfig (js "A=1" ++ NL :: js "# the region" ++ NL :: js "B=2")
     = parseConfig (js "A=1" ++ NL :: js "B=2").
Proof.
  split; [reflexivity|].
  apply parseConfig_skips_comments; [reflexivity|by left].
Defined.

Lemma drop_while_fixed (p : ascii -> bool) s :
  match s with [] => True | c :: _ => p c = false end -> drop_while p s = s.
Proof. destruct s as [|c s]; [done|]. intros H. cbn. by rewrite H. Qed.

(** Trimming removes all the surrounding white space at once. *)
Lemma trim_idempotent s : trim (trim s) = trim s.
Proof.
  unfold trim, trimEnd, trimStart.
  set (u := drop_while is_ws s).
  set (v := drop_while is_ws (rev u)).
  assert (drop_while is_ws (rev v) = rev v) as Hhead.
  { apply drop_while_fixed.
    pose proof (take_drop_while is_ws (rev u)) as Hsplit. fold v in Hsplit.
    apply (f_equal (@rev ascii)) in Hsplit.
    rewrite rev_app_distr, rev_involutive in Hsplit.
    pose proof (drop_while_stops is_ws s) as Hu. fold u in Hu.
    destruct (rev v) as [|c r]; [done|].
    rewrite <- Hsplit in Hu. exact Hu. }
  rewrite Hhead, rev_involutive.
  assert (drop_while is_ws v = v) as ->; [|done].
  apply drop_while_fixed. apply (drop_while_stops is_ws (rev u)).
Qed.

(** X8: every line that [parseStringToArray] hands to the parser is not
    empty and carries no white space at either end, and the text without
    any visible character gives no line at all. *)
Theorem parseStringToArray_lines (s : str) :
  Forall (fun line => line <> [] /\ trim line = line) (parseStringToArray s)
  /\ (forallb is_ws s = true -> parseStringToArray s = []).
Proof.
  split.
  - unfold parseStringToArray. apply Forall_forall. intros line Hin.
    apply list_elem_of_In, filter_In in Hin as [Hin Hlen].
    apply in_map_iff in Hin as (raw & <- & _). split.
    + intros Heq. by rewrite Heq in Hlen.
    + apply trim_idempotent.
  - intros Hws. unfold parseStringToArray.
    assert (Forall (fun piece => forallb is_ws piece = true) (split NL s)) as Hpieces.
    { clear -Hws. induction s as [|x s IH]; cbn [split].
      - by repeat constructor.
      - cbn [forallb] in Hws. apply andb_prop in Hws as [Hx Hs].
        specialize (IH Hs). destruct (Ascii.eqb x NL).
        + by constructor.
        + destruct (split NL s) as [|r rs]; [by repeat constructor; cbn; rewrite Hx|].
          inversion IH; subst. constructor; [|done]. cbn. by rewrite Hx. }
    induction Hpieces as [|piece rest Hp _ IH]; [done|].
    cbn [map List.filter].
    assert (trim piece = []) as ->; [|exact IH].
    unfold trim, trimEnd, trimStart. by rewrite (drop_while_all _ _ Hp).
Qed.

Lemma parseStringToArray_lines_witness :
  forallb is_ws (js "  " ++ [NL; TAB] ++ js " ") = true
  /\ parseStringToArray (js "  " ++ [NL; TAB] ++ js " ") = [].
Proof.
  split; [reflexivity|].
  exact (proj2 (parseStringToArray_lines (js "  " ++ [NL; TAB] ++ js " ")) eq_refl).
Defined.

End LoadFacts.

(** ** Runs of the wizard *)

Section WizardRuns.

Variable COLOR_YELLOW : str.
Variable template : list str.

Implicit Types (r : Round) (script : list Round) (w : World).

Lemma wizard_commit_round r (later : list Round) w :
  commits (files w) r = true ->
  interactivelyGenerateConfig COLOR_YELLOW template (r :: later) w
  = Some (resultConfig_of (envVarValues r),
          {| files := <[config_path (filename r) := buildEnv (envVarValues r)]> (files w);
             rng := rng w;
             events := events w ++ commit_events template (files w) r |}).
Proof.
  unfold commits, commit_events. intros [Hc Hgo]%andb_prop.
  cbn [interactivelyGenerateConfig]. rewrite Hc. cbn [negb].
  rewrite !emit_first, !after_after. cbn [files after_events].
  destruct (configExists (config_path (filename r)) (files w)) eqn:He.
  - cbn [negb orb] in Hgo. rewrite Hgo.
    unfold writeFileSync, after_events, emit, review_prompts. cbn [files rng events].
    rewrite insert_insert_eq, <- !app_assoc. reflexivity.
  - unfold writeFileSync, after_events, review_prompts. cbn [files rng events].
    rewrite <- !app_assoc. reflexivity.
Qed.

Lemma wizard_skip_round r (later : list Round) w :
  commits (files w) r = false ->
  interactivelyGenerateConfig COLOR_YELLOW template (r :: later) w
  = interactivelyGenerateConfig COLOR_YELLOW template later
      (after_events (declined_events COLOR_YELLOW template r) w).
Proof.
  unfold commits, declined_events. intros Hno.
  cbn [interactivelyGenerateConfig].
  rewrite !emit_first, !after_after. cbn [files after_events].
  destruct (confirm r); cbn [negb andb] in *.
  - destruct (configExists (config_path (filename r)) (files w)); cbn [negb orb] in Hno;
      [|done].
    rewrite Hno. unfold review_prompts. by rewrite <- !app_assoc.
  - unfold review_prompts. by rewrite app_nil_r.
Qed.

(** X9: the wizard ends at the first round that confirms the review and,
    where the destination exists, the overwrite (the file name leading
    into no other directory): it returns the flattened answers of that
    round; the destination then holds the text built from them and every
    other file is as before; what has happened is, for each round declined
    before, its prompts (and, after a declined overwrite, the warning), and
    then the prompts and the write of the final round, nothing else; the
    input that follows plays no part. *)
Theorem wizard_ends_at_first_commit (declined : list Round) (r : Round) (later : list Round)
    (w : World) :
  forallb (fun d => negb (commits (files w) d)) declined = true ->
  commits (files w) r = true ->
  has_char SLASH (filename r) = false ->
  interactivelyGenerateConfig COLOR_YELLOW template (declined ++ r :: later) w
  = Some (resultConfig_of (envVarValues r),
          {| files := <[config_path (filename r) := buildEnv (envVarValues r)]> (files w);
             rng := rng w;
             events := events w
                         ++ concat (map (declined_events COLOR_YELLOW template) declined)
                         ++ commit_events template (files w) r |}).
Proof.
  intros Hdecl Hr _. revert w Hdecl Hr.
  induction declined as [|d declined IH]; intros w Hdecl Hr.
  - by apply wizard_commit_round.
  - cbn [forallb] in Hdecl. apply andb_prop in Hdecl as [Hd Hdecl].
    apply negb_true_iff in Hd.
    cbn [app]. rewrite (wizard_skip_round d (declined ++ r :: later) w Hd).
    rewrite (IH (after_events (declined_events COLOR_YELLOW template d) w) Hdecl Hr).
    cbn [after_events files rng events map concat].
    by rewrite <- !app_assoc.
Qed.

End WizardRuns.

Lemma wizard_ends_at_first_commit_witness :
  let w := {| files := {[ js "./config.cfg" := js "OLD=1" ]}; rng := fun _ => 0%Q; events := [] |} in
  let unsure := {| envVarValues := [(js "A", AStr (js "1"))]; filename := js "config";
                   confirm := false; confirmoverwrite := false |} in
  let keep := {| envVarValues := [(js "A", AStr (js "2"))]; filename := js "config";
                 confirm := true; confirmoverwrite := false |} in
  let fresh := {| envVarValues := [(js "A", AArr [js "3"; js "4"])]; filename := js "other";
                  confirm := true; confirmoverwrite := false |} in
  forallb (fun d => negb (commits (files w) d)) [unsure; keep] = true
  /\ commits (files w) fresh = true
  /\ has_char SLASH (filename fresh) = false
  /\ interactivelyGenerateConfig (js "<yellow>") [js "A=0"] ([unsure; keep] ++ fresh :: [unsure]) w
     = Some ([(js "A", Some (js "3"))],
             {| files := <[js "./other.cfg" := buildEnv [(js "A", AArr [js "3"; js "4"])]]>
                           (files w);
                rng := rng w;
                events := events w
                            ++ concat (map (declined_events (js "<yellow>") [js "A=0"])
                                         [unsure; keep])
                            ++ commit_events [js "A=0"] (files w) fresh |}).
Proof.
  intros w unsure keep fresh.
  assert (forallb (fun d => negb (commits (files w) d)) [unsure; keep] = true) as Hd
    by (vm_compute; reflexivity).
  assert (commits (files w) fresh = true) as Hc by (vm_compute; reflexivity).
  split; [exact Hd|]. split; [exact Hc|]. split; [reflexivity|].
  exact (wizard_ends_at_first_commit (js "<yellow>") [js "A=0"] [unsure; keep] fresh [unsure]
           w Hd Hc eq_refl).
Defined.

Section Flattening.




End Flattening.

(** ** Cloud projects and the example catalog *)

Section SelectorRuns.

Variable COLOR_YELLOW : str.
Variable commands : str -> option str.

Implicit Types (config : Config) (stdout raw name sel : str) (w : World).

Ltac run_open :=
  unfold mbind, run_bind, mret, run_ret, say, execCommand, logUsedConfig, throw, try_catch;
  cbn [default from_option id show_or fmap option_fmap option_map].

Lemma random_loop_returns (n : nat) :
  forall (randomChars : list (option ascii)) w,
    exists cs w',
      random_loop n randomChars w = (Returned cs, w')
      /\ files w' = files w /\ events w' = events w.
Proof.
  induction n as [|n IH]; intros randomChars w.
  - exists randomChars, w. split; [reflexivity|]. split; reflexivity.
  - cbn [random_loop]. unfold mbind, run_bind, random.
    destruct (IH (randomChars ++ [char_at characters (randomIndex (rng w 0))])
                {| files := files w; rng := fun i => rng w (S i); events := events w |})
      as (cs & w' & Hrun & Hf & He).
    exists cs, w'. rewrite Hrun. split; [reflexivity|]. split; assumption.
Qed.

Lemma generateRandomGcpProjectId_returns w :
  exists id w1,
    generateRandomGcpProjectId w = (Returned id, w1)
    /\ files w1 = files w /\ events w1 = events w.
Proof.
  destruct (random_loop_returns (Z.to_nat projectIdLength) [] w) as (cs & w1 & Hrun & Hf & He).
  exists (prefix ++ join_chars cs), w1.
  unfold generateRandomGcpProjectId, mbind, run_bind. rewrite Hrun.
  split; [reflexivity|]. split; assumption.
Qed.

(** X11: creating a cloud project never throws: with the identifier that
    was drawn, the call reports the project, runs the create command and
    answers true when the command succeeds, and answers false after an
    error message when it fails. *)
Theorem createGoogleCloudProject_outcome (name : str) (w : World) :
  exists id w1,
    generateRandomGcpProjectId w = (Returned id, w1)
    /\ files w1 = files w /\ events w1 = events w
    /\ createGoogleCloudProject commands name w
       = match commands (create_project_command id name) with
         | Some _ =>
             (Returned true,
              after_events [creating_project id name;
                            EvExec (create_project_command id name)] w1)
         | None =>
             (Returned false,
              after_events [creating_project id name; creation_failed] w1)
         end.
Proof.
  destruct (generateRandomGcpProjectId_returns w) as (id & w1 & Hgen & Hf & He).
  exists id, w1. split; [exact Hgen|]. split; [exact Hf|]. split; [exact He|].
  unfold createGoogleCloudProject. run_open. rewrite Hgen.
  fold (create_project_command id name).
  destruct (commands (create_project_command id name)).
  - rewrite !emit_first, !after_after. reflexivity.
  - rewrite !emit_first, !after_after. reflexivity.
Qed.

(** X12: after the prompt, a name that the listing shows is set as the
    active project without any creation; a new name is created first, and
    when that creation fails the run throws and the active project is not
    changed. *)
Theorem project_after_prompt_outcomes (stdout sel id : str) (w w1 : World) :
  generateRandomGcpProjectId w = (Returned id, w1) ->
  (includes stdout sel = true ->
   project_after_prompt COLOR_YELLOW commands stdout sel w
   = gcloudSetProject COLOR_YELLOW commands sel w)
  /\ (includes stdout sel = false ->
      commands (create_project_command id sel) = None ->
      project_after_prompt COLOR_YELLOW commands stdout sel w
      = (Thrown (js "Failed to create a new GCP project."),
         after_events [creating_project id sel; creation_failed] w1))
  /\ (includes stdout sel = false ->
      commands (create_project_command id sel) <> None ->
      project_after_prompt COLOR_YELLOW commands stdout sel w
      = gcloudSetProject COLOR_YELLOW commands sel
          (after_events [creating_project id sel;
                         EvExec (create_project_command id sel)] w1)).
Proof.
  intros Hgen.
  destruct (createGoogleCloudProject_outcome sel w) as (id' & w1' & Hgen' & _ & _ & Hcreate).
  rewrite Hgen in Hgen'. injection Hgen' as <- <-.
  split; [|split].
  - intros Hin. unfold project_after_prompt. rewrite Hin. cbn [negb]. reflexivity.
  - intros Hin Hcmd. unfold project_after_prompt. rewrite Hin. cbn [negb].
    unfold mbind at 1 2. unfold run_bind at 1 2. rewrite Hcreate, Hcmd. reflexivity.
  - intros Hin Hcmd. unfold project_after_prompt. rewrite Hin. cbn [negb].
    unfold mbind at 1 2. unfold run_bind at 1 2. rewrite Hcreate.
    destruct (commands (create_project_command id sel)); [reflexivity|].
    exfalso. apply Hcmd. reflexivity.
Qed.

(** X13: the example selector returns a configured name without prompting
    exactly when, trimmed, it is not empty and is the repository of a
    catalog entry; an absent or blank name leads to the prompt without a
    warning, any other name to a warning and the prompt; and after the
    prompt the result is the picked line up to its first tab, trimmed. *)
Theorem example_selection (config : Config) (githubProjects : list ProjectData)
    (sel : str) (w : World) :
  let key := js "EXAMPLE_REPO_NAME" in
  let run := selectSipgateIOProject COLOR_YELLOW config githubProjects sel w in
  (forall raw, obj_get key config = Some raw -> trim raw <> [] ->
     Exists (fun x => repository x = trim raw) githubProjects ->
     run = (Returned (trim raw), after_events [using_config key (trim raw)] w))
  /\ (truthy (trim <$> obj_get key config) = false ->
      run = (Returned (picked_key sel), after_events [EvAsk (js "selectedProject")] w))
  /\ (forall raw, obj_get key config = Some raw -> trim raw <> [] ->
      Forall (fun x => repository x <> trim raw) githubProjects ->
      run = (Returned (picked_key sel),
             after_events [invalid_warning COLOR_YELLOW key (trim raw);
                           EvAsk (js "selectedProject")] w)).
Proof.
  intros key run. split; [|split].
  - intros raw Hg Hne Hex. unfold run, selectSipgateIOProject. fold key. rewrite Hg.
    run_open. destruct (trim raw) as [|c name] eqn:E; [done|]. cbn [truthy negb orb andb].
    rewrite bool_decide_eq_true_2.
    + reflexivity.
    + apply Exists_exists in Hex as (x & Hx & Heq). apply Exists_exists.
      exists x. split; [done|]. by rewrite Heq.
  - intros Hg. unfold run, selectSipgateIOProject. fold key.
    destruct (obj_get key config) as [raw|]; run_open.
    + cbn [fmap option_fmap option_map] in Hg.
      destruct (trim raw) as [|c name]; [|done]. cbn [truthy negb orb andb].
      reflexivity.
    + cbn [truthy negb orb andb]. reflexivity.
  - intros raw Hg Hne Hno. unfold run, key. by apply example_name_exact.
Qed.

End SelectorRuns.

Lemma project_after_prompt_outcomes_witness :
  let w := {| files := ∅; rng := fun _ => 0%Q; events := [] |} in
  let commands := fun _ : str => @None str in
  exists id w1,
    generateRandomGcpProjectId w = (Returned id, w1)
    /\ (includes (js "existing-project") (js "brand-new") = false
        /\ commands (create_project_command id (js "brand-new")) = None
        /\ project_after_prompt (js "<yellow>") commands (js "existing-project") (js "brand-new") w
           = (Thrown (js "Failed to create a new GCP project."),
              after_events [creating_project id (js "brand-new"); creation_failed] w1)).
Proof.
  intros w commands.
  assert (generateRandomGcpProjectId w
          = (Returned (js "sipgateio-aaaaaaaaaaaaaaaaaaaa"),
             {| files := ∅; rng := fun _ => 0%Q; events := [] |})) as Hgen
    by reflexivity.
  eexists _, _. split; [exact Hgen|]. split; [reflexivity|]. split; [reflexivity|].
  exact (proj1 (proj2 (project_after_prompt_outcomes (js "<yellow>") commands
                         (js "existing-project") (js "brand-new") _ w _ Hgen))
           eq_refl eq_refl).
Defined.

Lemma example_selection_witness :
  let catalog := [{| repository := js "sipgateio-sendsms-node"; description := js "null";
                     tabOffset := None |}] in
  let config := [(js "EXAMPLE_REPO_NAME", js " sipgateio-sendsms-node ")] in
  let w := {| files := ∅; rng := fun _ => 0%Q; events := [] |} in
  obj_get (js "EXAMPLE_REPO_NAME") config = Some (js " sipgateio-sendsms-node ")
  /\ selectSipgateIOProject (js "<yellow>") config catalog (js "ignored") w
     = (Returned (js "sipgateio-sendsms-node"),
        after_events [using_config (js "EXAMPLE_REPO_NAME") (js "sipgateio-sendsms-node")] w).
Proof.
  intros catalog config w. split; [reflexivity|].
  refine (proj1 (example_selection (js "<yellow>") config catalog (js "ignored") w)
            (js " sipgateio-sendsms-node ") eq_refl _ _).
  - discriminate.
  - left. reflexivity.
Defined.

(** ** The catalog lines *)

Section CatalogLines.

Implicit Types (s q : str) (project : ProjectData) (githubProjects : list ProjectData).

(** X14: there is one tab count for each name, every count is at least 1,
    and a name of the greatest length gets exactly one tab. *)
Theorem calculateTabs_counts (strings : list str) :
  length (calculateTabs strings) = length strings
  /\ Forall (fun tabs => 1 <= tabs) (calculateTabs strings)
  /\ forall i (s : str),
      strings !! i = Some s ->
      length s = max_list (map (fun s : str => length s) strings) ->
      calculateTabs strings !! i = Some 1.
Proof.
  split; [apply calculateTabs_length|]. split.
  - rewrite calculateTabs_map. apply Forall_forall. intros tabs Hin.
    apply list_elem_of_In, in_map_iff in Hin as (s & <- & _). lia.
  - intros i s Hs Hmax. rewrite (calculateTabs_lookup strings i s Hs), <- Hmax.
    by rewrite Nat.sub_diag.
Qed.

Lemma slice_take s (n : nat) : slice s 0 (Z.of_nat n) = take n s.
Proof.
  unfold slice, clamp_index. change (0 <? 0)%Z with false. cbv iota.
  destruct (Z.ltb_spec (Z.of_nat n) 0); [lia|].
  rewrite (Z.min_l 0) by lia. change (Z.to_nat 0) with 0. rewrite drop_0, Z.sub_0_r.
  destruct (Nat.le_gt_cases n (length s)).
  - rewrite Z.min_l by lia. by rewrite Nat2Z.id.
  - rewrite Z.min_r by lia. rewrite Nat2Z.id.
    by rewrite !firstn_all2 by lia.
Qed.

(** X15: a catalog line is the repository, its tabs, and between the two
    colour codes a dash and the description, which is shown whole up to 101
    characters, cut to 101 characters and three dots beyond, and not at all
    when it is the text [null]; what is shown never exceeds 104
    characters. *)
Theorem render_project_description (project : ProjectData) :
  exists shown : str,
    render_project project
    = repository project ++ repeat_tab (default 1 (tabOffset project))
        ++ COLOR_GRAY ++ js " - " ++ shown ++ COLOR_DEFAULT
    /\ length shown <= 104
    /\ (description project = js "null" -> shown = [])
    /\ (description project <> js "null" -> length (description project) <= 101 ->
        shown = description project)
    /\ (description project <> js "null" -> 101 < length (description project) ->
        shown = take 101 (description project) ++ js "...").
Proof.
  unfold render_project. change 101%Z with (Z.of_nat 101). rewrite slice_take.
  case_bool_decide as Hnull.
  - exists []. split; [reflexivity|]. split; [cbn; lia|]. split; [done|]. split; done.
  - destruct (Nat.ltb_spec 101 (length (description project))) as [Hlong|Hshort].
    + exists (take 101 (description project) ++ js "...").
      split; [reflexivity|]. split.
      { rewrite length_app, length_take. cbn [length js list_ascii_of_string]. lia. }
      split; [done|]. split; [lia|done].
    + exists (take 101 (description project) ++ []).
      split; [reflexivity|]. rewrite app_nil_r, firstn_all2 by lia.
      split; [lia|]. split; [done|]. split; [done|lia].
Qed.

Lemma filter_all {A : Type} (f : A -> bool) (l : list A) :
  (forall x, f x = true) -> List.filter f l = l.
Proof.
  intros Hf. induction l as [|x l IH]; cbn [List.filter]; [done|].
  by rewrite Hf, IH.
Qed.

(** X16: with no query, or an empty one, the prompt lists the whole
    catalog, every entry rendered, in catalog order. *)
Theorem catalog_source_empty_query (githubProjects : list ProjectData) :
  catalog_source githubProjects None = map render_project githubProjects
  /\ catalog_source githubProjects (Some []) = map render_project githubProjects.
Proof.
  split.
  - unfold catalog_source. rewrite filter_all; [done|].
    intros x. unfold catalog_match. cbn. by rewrite includes_empty.
  - unfold catalog_source. rewrite filter_all; [done|].
    intros x. unfold catalog_match. cbn. by rewrite includes_empty.
Qed.

Lemma with_tab_offsets_at_least_one githubProjects project :
  project ∈ with_tab_offsets githubProjects ->
  exists tabs, tabOffset project = Some (S tabs).
Proof.
  unfold with_tab_offsets. intros Hin.
  apply list_elem_of_lookup in Hin as [i Hi].
  rewrite list_lookup_imap in Hi.
  destruct (githubProjects !! i) as [p|] eqn:Hp; [|done].
  cbn in Hi. injection Hi as <-. cbn [tabOffset].
  assert (map repository githubProjects !! i = Some (repository p)) as Hrepo.
  { change (map repository githubProjects) with (repository <$> githubProjects).
    by rewrite list_lookup_fmap, Hp. }
  rewrite (calculateTabs_lookup _ i _ Hrepo).
  eexists. by rewrite Nat.add_1_r.
Qed.

(** X17: picking the line shown for a catalog entry gives back the
    repository of that entry, trimmed, whenever the repository holds no
    tab: the padding, the colour codes and the description are all
    stripped. *)
Theorem picked_key_of_rendered_line (githubProjects : list ProjectData) (project : ProjectData) :
  project ∈ with_tab_offsets githubProjects ->
  has_char TAB (repository project) = false ->
  picked_key (render_project project) = trim (repository project).
Proof.
  intros Hin Htab%has_char_false.
  destruct (with_tab_offsets_at_least_one _ _ Hin) as [tabs Ht].
  unfold picked_key, render_project. rewrite Ht. cbn [default from_option id].
  unfold repeat_tab. cbn [repeat]. rewrite <- !app_comm_cons.
  unfold indexOf. rewrite indexOf_from_app by done. rewrite Z.add_0_l.
  by rewrite slice_prefix.
Qed.

Lemma picked_key_of_rendered_line_witness :
  let catalog := [{| repository := js "sipgateio-sendsms-node";
                     description := js "Send an SMS"; tabOffset := None |};
                  {| repository := js "sipgateio-incomingcall-python";
                     description := js "null"; tabOffset := None |}] in
  let shown := {| repository := js "sipgateio-sendsms-node";
                  description := js "Send an SMS"; tabOffset := Some 1 |} in
  shown ∈ with_tab_offsets catalog
  /\ has_char TAB (repository shown) = false
  /\ picked_key (render_project shown) = js "sipgateio-sendsms-node".
Proof.
  intros catalog shown.
  assert (shown ∈ with_tab_offsets catalog) as Hin by (vm_compute; left).
  split; [exact Hin|]. split; [reflexivity|].
  rewrite (picked_key_of_rendered_line catalog shown Hin eq_refl). reflexivity.
Defined.

End CatalogLines.

(** ** Cloning and the local repository *)

Section LocalProject.

Variable COLOR_YELLOW : str.

Implicit Types (answers rest : list str) (w : World) (p : str).

(** X18: cloning never throws.  The old copy is removed first; when the
    removal fails the clone is not attempted, when the clone fails the old
    copy is gone all the same, and the answer is true only when both
    commands succeed. *)
Theorem gCloudCloneGitRepository_outcome (commands : str -> option str) (project : str)
    (w : World) :
  let remove := js "rm -rf " ++ project in
  let clone := js "git clone git@github.com:sipgate-io/" ++ project ++ js ".git" in
  let failed := EvLog (js "Google Cloud could not clone Github Repository.") in
  gCloudCloneGitRepository commands project w
  = match commands remove, commands clone with
    | None, _ => (Returned false, after_events [failed] w)
    | Some _, None => (Returned false, after_events [EvExec remove; failed] w)
    | Some _, Some _ => (Returned true, after_events [EvExec remove; EvExec clone] w)
    end.
Proof.
  intros remove clone failed.
  unfold gCloudCloneGitRepository, try_catch, mbind, run_bind, execCommand, say, mret, run_ret.
  fold remove clone failed.
  destruct (commands remove); [|reflexivity].
  destruct (commands clone); rewrite !emit_first, ?after_after; reflexivity.
Qed.

(** What a call that returns has done, whatever the fuel. *)
Lemma selectLocalProject_fuel_result (fuel : nat) :
  forall answers w v rest' w',
    selectLocalProject_fuel COLOR_YELLOW fuel answers w = Some (v, rest', w') ->
    exists p rest,
      answers = p :: rest /\ v = strip_trailing_slash p
      /\ length rest' <= length rest /\ files w' = files w.
Proof.
  induction fuel as [|fuel IH]; intros answers w v rest' w' Hrun; [done|].
  destruct answers as [|p rest]; [done|].
  cbn [selectLocalProject_fuel] in Hrun.
  exists p, rest. split; [done|].
  cbn [files emit] in Hrun.
  destruct (existsSync (strip_trailing_slash p) (files w)); cbn [negb] in Hrun.
  - cbn [files emit] in Hrun.
    destruct (existsSync (strip_trailing_slash p ++ js "/app.yaml") (files w));
      cbn [negb] in Hrun.
    + injection Hrun as <- <- <-. done.
    + destruct (selectLocalProject_fuel COLOR_YELLOW fuel rest _) as [[[v2 r2] w2]|] eqn:E2;
        [|done].
      injection Hrun as <- <- <-.
      destruct (IH _ _ _ _ _ E2) as (p2 & rest2 & -> & _ & Hlen & Hf).
      cbn [length files emit] in *. split; [done|]. split; [lia|exact Hf].
  - destruct (selectLocalProject_fuel COLOR_YELLOW fuel rest _) as [[[v1 r1] w1]|] eqn:E1;
      [|done].
    destruct (IH _ _ _ _ _ E1) as (p1 & rest1 & -> & _ & Hlen1 & Hf1).
    cbn [files emit] in Hf1. rewrite Hf1 in Hrun.
    destruct (existsSync (strip_trailing_slash p ++ js "/app.yaml") (files w));
      cbn [negb] in Hrun.
    + injection Hrun as <- <- <-. cbn [length] in *. split; [done|]. split; [lia|done].
    + destruct (selectLocalProject_fuel COLOR_YELLOW fuel r1 _) as [[[v2 r2] w2]|] eqn:E2;
        [|done].
      injection Hrun as <- <- <-.
      destruct (IH _ _ _ _ _ E2) as (p2 & rest2 & -> & _ & Hlen2 & Hf2).
      cbn [files emit length] in *.
      split; [done|]. split; [lia|]. by rewrite Hf2.
Qed.
(** The fuel of [selectLocalProject] is enough: more fuel changes
    nothing. *)
Lemma selectLocalProject_fuel_enough (fuel1 : nat) :
  forall fuel2 answers w,
    length answers < fuel1 -> length answers < fuel2 ->
    selectLocalProject_fuel COLOR_YELLOW fuel1 answers w
    = selectLocalProject_fuel COLOR_YELLOW fuel2 answers w.
Proof.
  induction fuel1 as [|fuel1 IH]; intros fuel2 answers w H1 H2; [lia|].
  destruct fuel2 as [|fuel2]; [lia|].
  destruct answers as [|p rest]; [done|].
  cbn [length] in H1, H2. cbn [selectLocalProject_fuel].
  assert (forall rest1 w1, length rest1 <= length rest ->
            selectLocalProject_fuel COLOR_YELLOW fuel1 rest1 w1
            = selectLocalProject_fuel COLOR_YELLOW fuel2 rest1 w1) as Hsame.
  { intros rest1 w1 Hlen. apply IH; lia. }
  destruct (existsSync (strip_trailing_slash p) _); cbn [negb].
  - destruct (existsSync (strip_trailing_slash p ++ js "/app.yaml") _); cbn [negb];
      [done|]. by rewrite Hsame.
  - rewrite Hsame by done.
    destruct (selectLocalProject_fuel COLOR_YELLOW fuel2 rest _) as [[[v1 r1] w1]|] eqn:E1;
      [|done].
    destruct (selectLocalProject_fuel_result _ _ _ _ _ _ E1) as (p1 & rest1 & -> & _ & Hlen & _).
    cbn [length] in Hlen.
    destruct (existsSync (strip_trailing_slash p ++ js "/app.yaml") _); cbn [negb];
      [done|]. rewrite Hsame by (cbn [length]; lia). done.
Qed.

(** X19: a first answer that names an existing directory with an
    [app.yaml] inside is returned at once, without its trailing slash,
    after a single prompt and without any message. *)
Theorem selectLocalProject_valid_path (p : str) (rest : list str) (w : World) :
  existsSync (strip_trailing_slash p) (files w) = true ->
  existsSync (strip_trailing_slash p ++ js "/app.yaml") (files w) = true ->
  selectLocalProject COLOR_YELLOW (p :: rest) w
  = Some (strip_trailing_slash p, rest, after_events [EvAsk (js "repoPath")] w).
Proof.
  intros Hdir Hyaml. unfold selectLocalProject.
  cbn [selectLocalProject_fuel length]. cbn [files emit].
  rewrite Hdir. cbn [negb files emit]. rewrite Hyaml. reflexivity.
Qed.

(** X20: whenever the selection returns, it returns the first answer
    without its trailing slash and has touched no file, also when that
    answer was rejected and other paths were entered afterwards: a first
    path that does not exist, followed by two valid answers, is what the
    caller gets. *)
Theorem selectLocalProject_first_answer (answers : list str) (w : World) :
  (forall v rest' w',
      selectLocalProject COLOR_YELLOW answers w = Some (v, rest', w') ->
      exists p rest,
        answers = p :: rest /\ v = strip_trailing_slash p
        /\ length rest' <= length rest /\ files w' = files w)
  /\ (forall p1 p2 p3 rest,
        answers = p1 :: p2 :: p3 :: rest ->
        existsSync (strip_trailing_slash p1) (files w) = false ->
        existsSync (strip_trailing_slash p1 ++ js "/app.yaml") (files w) = false ->
        existsSync (strip_trailing_slash p2) (files w) = true ->
        existsSync (strip_trailing_slash p2 ++ js "/app.yaml") (files w) = true ->
        existsSync (strip_trailing_slash p3) (files w) = true ->
        existsSync (strip_trailing_slash p3 ++ js "/app.yaml") (files w) = true ->
        exists w',
          selectLocalProject COLOR_YELLOW answers w = Some (strip_trailing_slash p1, rest, w')
          /\ List.filter is_ask (events w')
             = List.filter is_ask (events w)
                 ++ [EvAsk (js "repoPath"); EvAsk (js "repoPath"); EvAsk (js "repoPath")]).
Proof.
  split.
  - intros v rest' w'. apply selectLocalProject_fuel_result.
  - intros p1 p2 p3 rest -> H1 H1y H2 H2y H3 H3y. unfold selectLocalProject.
    cbn [length selectLocalProject_fuel]. cbn [files emit].
    rewrite H1. cbn [negb files emit]. rewrite H2. cbn [negb files emit].
    rewrite H2y. cbn [negb files emit]. rewrite H1y. cbn [negb files emit].
    rewrite H3. cbn [negb files emit]. rewrite H3y. cbn [negb].
    eexists. split; [reflexivity|].
    cbn [events emit]. rewrite !List.filter_app. cbn [List.filter is_ask].
    rewrite !app_nil_r, <- !app_assoc. reflexivity.
Qed.

End LocalProject.

Lemma selectLocalProject_valid_path_witness :
  let w := {| files := {[ js "repo" := js ""; js "repo/app.yaml" := js "runtime: nodejs" ]};
              rng := fun _ => 0%Q; events := [] |} in
  existsSync (strip_trailing_slash (js "repo/")) (files w) = true
  /\ existsSync (strip_trailing_slash (js "repo/") ++ js "/app.yaml") (files w) = true
  /\ selectLocalProject (js "<yellow>") [js "repo/"; js "unused"] w
     = Some (js "repo", [js "unused"], after_events [EvAsk (js "repoPath")] w).
Proof.
  intros w.
  assert (existsSync (strip_trailing_slash (js "repo/")) (files w) = true) as Hd
    by (vm_compute; reflexivity).
  assert (existsSync (strip_trailing_slash (js "repo/") ++ js "/app.yaml") (files w) = true)
    as Hy by (vm_compute; reflexivity).
  split; [exact Hd|]. split; [exact Hy|].
  exact (selectLocalProject_valid_path (js "<yellow>") (js "repo/") [js "unused"] w Hd Hy).
Defined.

Lemma selectLocalProject_first_answer_witness :
  let w := {| files := {[ js "repo" := js ""; js "repo/app.yaml" := js "runtime: nodejs" ]};
              rng := fun _ => 0%Q; events := [] |} in
  exists w',
    selectLocalProject (js "<yellow>") [js "nowhere/"; js "repo"; js "repo/"; js "left"] w
    = Some (js "nowhere", [js "left"], w').
Proof.
  intros w.
  destruct (proj2 (selectLocalProject_first_answer (js "<yellow>")
                     [js "nowhere/"; js "repo"; js "repo/"; js "left"] w)
              (js "nowhere/") (js "repo") (js "repo/") [js "left"] eq_refl)
    as (w' & Hrun & _); try (vm_compute; reflexivity).
  exists w'. exact Hrun.
Defined.

(** ** The traversal pattern *)

Section Traversal.

Implicit Types (s pre post : str).

Lemma dotdot_here_spec s :
  dotdot_here s = true <->
  exists post, s = DOT :: DOT :: post /\ (post = [] \/ head post = Some SLASH).
Proof.
  destruct s as [|a [|b rest]]; cbn [dotdot_here].
  - split; [done|]. by intros (post & H & _).
  - split; [done|]. by intros (post & H & _).
  - rewrite !andb_true_iff, !Ascii.eqb_eq. split.
    + intros [[-> ->] Hrest]. exists rest. split; [done|].
      destruct rest as [|c rest]; [by left|]. right.
      apply Ascii.eqb_eq in Hrest as ->. done.
    + intros (post & H & Hpost). injection H as -> -> ->. split; [done|].
      destruct post as [|c post]; [done|].
      destruct Hpost as [|Hc]; [done|]. cbn in Hc. injection Hc as ->.
      apply Ascii.eqb_refl.
Qed.

Lemma traversal_from_spec s :
  forall at_start : bool,
    traversal_from at_start s = true <->
    exists pre post,
      s = pre ++ DOT :: DOT :: post
      /\ (post = [] \/ head post = Some SLASH)
      /\ match last pre with Some c => c = SLASH | None => at_start = true end.
Proof.
  induction s as [|c t IH]; intros at_start.
  - cbn [traversal_from dotdot_here]. rewrite andb_false_r. cbn [orb]. split; [done|].
    intros (pre & post & H & _). by destruct pre.
  - cbn [traversal_from]. rewrite orb_true_iff, andb_true_iff, dotdot_here_spec, IH.
    split.
    + intros [[Hs (post & H & Hpost)]|(pre & post & H & Hpost & Hpre)].
      * exists [], post. by rewrite H.
      * exists (c :: pre), post. split; [by rewrite H|]. split; [done|].
        rewrite last_cons. destruct (last pre) as [c'|]; [done|].
        by apply Ascii.eqb_eq.
    + intros ([|c' pre] & post & H & Hpost & Hpre).
      * left. cbn [last] in Hpre. split; [done|]. by exists post.
      * right. injection H as <- ->. exists pre, post. split; [done|]. split; [done|].
        rewrite last_cons in Hpre. destruct (last pre) as [c''|]; [done|].
        by apply Ascii.eqb_eq.
Qed.

(** X21: a project name is taken to contain a parent-directory traversal
    exactly when it holds two dots that stand at its start or right after
    a slash, and at its end or right before a slash; dots inside a longer
    name, or three dots, are no traversal. *)
Theorem has_traversal_spec (s : str) :
  has_traversal s = true <->
  exists pre post,
    s = pre ++ DOT :: DOT :: post
    /\ (pre = [] \/ last pre = Some SLASH)
    /\ (post = [] \/ head post = Some SLASH).
Proof.
  unfold has_traversal. rewrite traversal_from_spec. split.
  - intros (pre & post & H & Hpost & Hpre). exists pre, post.
    split; [done|]. split; [|done].
    destruct (last pre) as [c|] eqn:E; [right; by rewrite Hpre|].
    left. by apply last_None.
  - intros (pre & post & H & Hpre & Hpost). exists pre, post.
    split; [done|]. split; [done|].
    destruct Hpre as [-> | ->]; done.
Qed.

End Traversal.

Lemma has_traversal_spec_witness :
  (exists pre post,
      js "apps/../secret" = pre ++ DOT :: DOT :: post
      /\ (pre = [] \/ last pre = Some SLASH)
      /\ (post = [] \/ head post = Some SLASH))
  /\ has_traversal (js "apps/../secret") = true.
Proof.
  assert (exists pre post,
             js "apps/../secret" = pre ++ DOT :: DOT :: post
             /\ (pre = [] \/ last pre = Some SLASH)
             /\ (post = [] \/ head post = Some SLASH)) as Hshape.
  { exists (js "apps/"), (js "/secret"). split; [reflexivity|]. split; right; reflexivity. }
  split; [exact Hshape|].
  exact (proj2 (has_traversal_spec (js "apps/../secret")) Hshape).
Defined.

Lemma calculateTabs_counts_witness :
  let strings := [js "abc"; js "abcdefghijklmnopqrst"; js "abcdefghijk"] in
  strings !! 1 = Some (js "abcdefghijklmnopqrst")
  /\ length (js "abcdefghijklmnopqrst") = max_list (map (fun s : str => length s) strings)
  /\ calculateTabs strings !! 1 = Some 1.
Proof.
  intros strings. split; [reflexivity|]. split; [reflexivity|].
  exact (proj2 (proj2 (calculateTabs_counts strings)) 1 (js "abcdefghijklmnopqrst")
           eq_refl eq_refl).
Defined.

Lemma render_project_description_witness :
  let project := {| repository := js "sipgateio-sendsms-node"; description := js "Send an SMS";
                    tabOffset := Some 2 |} in
  description project <> js "null"
  /\ length (description project) <= 101
  /\ exists shown : str,
      render_project project
      = repository project ++ repeat_tab 2 ++ COLOR_GRAY ++ js " - " ++ shown ++ COLOR_DEFAULT
      /\ shown = js "Send an SMS".
Proof.
  intros project.
  assert (description project <> js "null") as Hn by discriminate.
  assert (length (description project) <= 101) as Hl by (vm_compute; lia).
  split; [exact Hn|]. split; [exact Hl|].
  destruct (render_project_description project) as (shown & Hr & _ & _ & Hshort & _).
  exists shown. split; [exact Hr|]. exact (Hshort Hn Hl).
Defined.

(** ** The trailing slash *)

Section TrailingSlash.

(** X22: of the path the user enters exactly one slash at the end is
    removed; a path that does not end with a slash is kept as it is. *)
Theorem strip_trailing_slash_once (s : str) :
  strip_trailing_slash (s ++ [SLASH]) = s
  /\ (last s <> Some SLASH -> strip_trailing_slash s = s).
Proof.
  split.
  - unfold strip_trailing_slash. rewrite rev_app_distr. cbn [rev app].
    rewrite Ascii.eqb_refl. apply rev_involutive.
  - intros Hlast. unfold strip_trailing_slash.
    destruct (rev s) as [|c r] eqn:E; [done|].
    destruct (Ascii.eqb c SLASH) eqn:Hc; [|done].
    apply Ascii.eqb_eq in Hc as ->. exfalso. apply Hlast.
    apply (f_equal (@rev ascii)) in E. rewrite rev_involutive in E. cbn [rev] in E.
    rewrite E. apply last_snoc.
Qed.

End TrailingSlash.

Lemma strip_trailing_slash_once_witness :
  strip_trailing_slash (js "repo//") = js "repo/"
  /\ last (js "repo") <> Some SLASH
  /\ strip_trailing_slash (js "repo") = js "repo".
Proof.
  split.
  - exact (proj1 (strip_trailing_slash_once (js "repo/"))).
  - assert (last (js "repo") <> Some SLASH) as Hl by discriminate.
    split; [exact Hl|]. exact (proj2 (strip_trailing_slash_once (js "repo")) Hl).
Defined.
